(** * Babel toolchain: a shallow embedding of selected components

    The development follows the layout of the repository:
    - [Semver]          the fragment of the external semver (v6) library that
                        [hasMinVersion] exercises;
    - [RuntimeHelpers]  babel-plugin-transform-runtime/src/helpers.ts;
    - [Removal]         babel-traverse, path/removal.ts;
    - [StaticBlock]     babel-plugin-transform-class-static-block/src/index.ts;
    - [FlowUnion]       babel-types, builders/flow/createFlowUnionType.ts;
    - [Validate]        babel-types, validators/validate.ts;
    - [Printer]         babel-generator/src/printer.ts;
    - [PresetEnv]       babel-preset-env/src/index.ts.
*)

From Stdlib Require Import Ascii String ZArith Lia.
From stdpp Require Import base numbers option list strings gmap sets pretty.

Local Open Scope string_scope.

(* ===================================================================== *)
(** * Semver: release versions, comparators and range intersection       *)
(* ===================================================================== *)

(** The semver library is a third-party dependency.  The model below covers
    release versions [MAJOR.MINOR.PATCH] and ranges made of one set of
    space-separated primitives [<v], [<=v], [>v], [>=v], [=v], [v] and [^v];
    every other string is outside the fragment and parses to [None]. *)
Module Semver.

Record SemVer := mkSemVer { major : N; minor : N; patch : N }.

Inductive Operator := OpLt | OpLe | OpGt | OpGe | OpEq.

Record Comparator := mkComparator { operator : Operator; semver : SemVer }.

Definition is_digit (c : ascii) : bool :=
  let n := nat_of_ascii c in (48 <=? n)%nat && (n <=? 57)%nat.

Fixpoint digits_value (acc : N) (s : string) : option N :=
  match s with
  | "" => Some acc
  | String c s' =>
      if is_digit c
      then digits_value (10 * acc + N.of_nat (nat_of_ascii c - 48))%N s'
      else None
  end.

(** A numeric identifier: [0], or digits without a leading zero. *)
Definition numeric_identifier (s : string) : option N :=
  match s with
  | "" => None
  | String "0" "" => Some 0%N
  | String "0" _ => None
  | _ => digits_value 0 s
  end.

(** [split_on sep s]: the pieces of [s] between occurrences of [sep]. *)
Fixpoint split_on (sep : ascii) (s : string) : list string :=
  match s with
  | "" => [""]
  | String c s' =>
      match split_on sep s' with
      | [] => [""]
      | piece :: rest =>
          if Ascii.eqb c sep then "" :: piece :: rest
          else String c piece :: rest
      end
  end.

Definition parse (s : string) : option SemVer :=
  match split_on "." s with
  | [a; b; c] =>
      M ← numeric_identifier a;
      m ← numeric_identifier b;
      p ← numeric_identifier c;
      Some (mkSemVer M m p)
  | _ => None
  end.

Definition valid (s : string) : bool := bool_decide (is_Some (parse s)).

Definition compare (a b : SemVer) : comparison :=
  match (major a ?= major b)%N with
  | Eq => match (minor a ?= minor b)%N with
          | Eq => (patch a ?= patch b)%N
          | c => c
          end
  | c => c
  end.

Definition lt (a b : SemVer) : bool :=
  match compare a b with Lt => true | _ => false end.
Definition gt (a b : SemVer) : bool :=
  match compare a b with Gt => true | _ => false end.
Definition eq (a b : SemVer) : bool :=
  match compare a b with Eq => true | _ => false end.

(** [cmp a op b] *)
Definition cmp (a : SemVer) (op : Operator) (b : SemVer) : bool :=
  match op with
  | OpLt => lt a b
  | OpLe => negb (gt a b)
  | OpGt => gt a b
  | OpGe => negb (lt a b)
  | OpEq => eq a b
  end.

(** Desugaring of a caret range on a release version: from the version
    up to, and excluding, the next change of its leftmost non-zero
    component. *)
Definition caret_upper (v : SemVer) : SemVer :=
  if (0 <? major v)%N then mkSemVer (major v + 1) 0 0
  else if (0 <? minor v)%N then mkSemVer 0 (minor v + 1) 0
  else mkSemVer 0 0 (patch v + 1).

Definition caret (v : SemVer) : list Comparator :=
  [mkComparator OpGe v; mkComparator OpLt (caret_upper v)].

(** [stripPrefix pre s]: what follows [pre] in [s], if [s] starts with it. *)
Fixpoint stripPrefix (pre s : string) : option string :=
  match pre, s with
  | "", _ => Some s
  | String a pre', String b s' =>
      if Ascii.eqb a b then stripPrefix pre' s' else None
  | _, "" => None
  end.

Definition comparator_of (op : Operator) (v : string)
    : option (list Comparator) :=
  (λ x, [mkComparator op x]) <$> parse v.

Definition parse_primitive (s : string) : option (list Comparator) :=
  match stripPrefix "^" s with
  | Some v => caret <$> parse v
  | None =>
  match stripPrefix "<=" s with
  | Some v => comparator_of OpLe v
  | None =>
  match stripPrefix ">=" s with
  | Some v => comparator_of OpGe v
  | None =>
  match stripPrefix "<" s with
  | Some v => comparator_of OpLt v
  | None =>
  match stripPrefix ">" s with
  | Some v => comparator_of OpGt v
  | None =>
  match stripPrefix "=" s with
  | Some v => comparator_of OpEq v
  | None => comparator_of OpEq s
  end end end end end end.

(** Strings without a space: they are a single piece of a range. *)
Fixpoint nospace (s : string) : bool :=
  match s with
  | "" => true
  | String c s' => negb (Ascii.eqb c " ") && nospace s'
  end.

(** A range of the fragment: one comparator set. *)
Definition parse_range (s : string) : option (list Comparator) :=
  mjoin <$> mapM parse_primitive (split_on " " s).

Definition test (c : Comparator) (v : SemVer) : bool :=
  cmp v (operator c) (semver c).

Definition increasing (op : Operator) : bool :=
  match op with OpGe | OpGt => true | _ => false end.
Definition decreasing (op : Operator) : bool :=
  match op with OpLe | OpLt => true | _ => false end.
Definition inclusive (op : Operator) : bool :=
  match op with OpGe | OpLe => true | _ => false end.

(** Comparator.prototype.intersects *)
Definition comparator_intersects (a b : Comparator) : bool :=
  match operator a, operator b with
  | OpEq, _ => test b (semver a)
  | _, OpEq => test a (semver b)
  | oa, ob =>
      (increasing oa && increasing ob)
      || (decreasing oa && decreasing ob)
      || (eq (semver a) (semver b) && inclusive oa && inclusive ob)
      || (lt (semver a) (semver b) && increasing oa && decreasing ob)
      || (gt (semver a) (semver b) && decreasing oa && increasing ob)
  end.

(** [isSatisfiable]: pops comparators from the end and checks each against
    the ones that remain. *)
Fixpoint isSatisfiable_rev (cs : list Comparator) : bool :=
  match cs with
  | [] => true
  | c :: rest =>
      match rest with
      | [] => true
      | _ => forallb (comparator_intersects c) rest && isSatisfiable_rev rest
      end
  end.

Definition isSatisfiable (cs : list Comparator) : bool :=
  isSatisfiable_rev (rev cs).

(** Range.prototype.intersects, for ranges of one comparator set each. *)
Definition range_intersects (r1 r2 : list Comparator) : bool :=
  isSatisfiable r1 && isSatisfiable r2
  && forallb (λ c1, forallb (comparator_intersects c1) r2) r1.

(** [intersects r1 r2]; [None] where building either range fails. *)
Definition intersects (r1 r2 : string) : option bool :=
  a ← parse_range r1; b ← parse_range r2; Some (range_intersects a b).

End Semver.

(* ===================================================================== *)
(** * Runtime-helper substitution: hasMinVersion                         *)
(* ===================================================================== *)

Module RuntimeHelpers.

Section HasMinVersion.
(** The two entry points of the semver library that the function calls.
    [intersects] answers [None] when the library throws. *)
Variable valid : string → bool.
Variable intersects : string → string → option bool.

(** JavaScript truthiness of a [string | void] value. *)
Definition truthy (v : option string) : bool :=
  match v with
  | None => false
  | Some s => negb (String.eqb s "")
  end.

Definition normalize (runtimeVersion : string) : string :=
  if valid runtimeVersion then "^" ++ runtimeVersion else runtimeVersion.

(** [None] stands for an exception raised by the semver library. *)
Definition hasMinVersion (minVersion : string)
    (runtimeVersion : option string) : option bool :=
  if negb (truthy runtimeVersion) then Some true
  else
    let runtimeVersion := normalize (default "" runtimeVersion) in
    b1 ← intersects ("<" ++ minVersion) runtimeVersion;
    if negb b1
    then b2 ← intersects ">=8.0.0" runtimeVersion; Some (negb b2)
    else Some false.
End HasMinVersion.

(** The function linked against the semver model, for version strings of
    the model's fragment. *)
Definition hasMinVersion_semver : string → option string → option bool :=
  hasMinVersion Semver.valid Semver.intersects.

End RuntimeHelpers.

(* ===================================================================== *)
(** * Traversal engine: removing a path                                  *)
(* ===================================================================== *)

Module Removal.

(** ** The store: nodes, containers, path objects, cache, scopes *)

(** A path's key: an index into an array container, or a field name. *)
Inductive Key := KNum (i : Z) | KStr (f : string).

(** A path's container: an array, or the parent object itself (then the
    key names the single-node slot). *)
Inductive Container := CArray (a : nat) | CObject (o : nat).

Record Node := mkNode {
  type : string;
  bindingIdentifiers : list string;
  leadingComments : list string;
  trailingComments : list string
}.

Record NodePath := mkPath {
  node : option nat;
  parent : option nat;
  container : option Container;
  key : Key;
  _traverseFlags : Z;
  noScope : bool;
  scope : nat
}.

Record World := mkWorld {
  nodes : gmap nat Node;
  arrays : gmap nat (list (option nat));
  slots : gmap (nat * string) (option nat);
  paths : gmap nat NodePath;
  pathCache : gmap nat (gmap (option nat) nat);
  bindings : gmap nat (gset string)
}.

#[global] Instance Key_eq_dec : EqDecision Key.
Proof. solve_decision. Defined.
#[global] Instance Container_eq_dec : EqDecision Container.
Proof. solve_decision. Defined.
#[global] Instance NodePath_inhabited : Inhabited NodePath :=
  populate (mkPath None None None (KStr "") 0 false 0).

Inductive Error :=
| CodeFrameError (msg : string)
| ReferenceError (msg : string)
| TypeError (msg : string).

(** A method body: it may throw, and in either case leaves a store. *)
Definition Step (A : Type) : Type := World → (Error + A) * World.

Definition ret {A} (a : A) : Step A := λ w, (inr a, w).
Definition throw {A} (e : Error) : Step A := λ w, (inl e, w).
Definition bind {A B} (m : Step A) (k : A → Step B) : Step B :=
  λ w, match m w with
       | (inr a, w1) => k a w1
       | (inl e, w1) => (inl e, w1)
       end.
Definition modify (f : World → World) : Step unit := λ w, (inr tt, f w).

Notation "m1 ;;; m2" := (bind m1 (λ _, m2))
  (at level 100, m2 at level 200, right associativity).

Definition this (p : nat) (w : World) : NodePath := paths w !!! p.

Definition set_this (p : nat) (pa : NodePath) (w : World) : World :=
  mkWorld (nodes w) (arrays w) (slots w) (<[p := pa]> (paths w))
          (pathCache w) (bindings w).
Definition set_nodes (ns : gmap nat Node) (w : World) : World :=
  mkWorld ns (arrays w) (slots w) (paths w) (pathCache w) (bindings w).
Definition set_arrays (ar : gmap nat (list (option nat))) (w : World) : World :=
  mkWorld (nodes w) ar (slots w) (paths w) (pathCache w) (bindings w).
Definition set_slots (sl : gmap (nat * string) (option nat)) (w : World) : World :=
  mkWorld (nodes w) (arrays w) sl (paths w) (pathCache w) (bindings w).
Definition set_paths (ps : gmap nat NodePath) (w : World) : World :=
  mkWorld (nodes w) (arrays w) (slots w) ps (pathCache w) (bindings w).
Definition set_pathCache (c : gmap nat (gmap (option nat) nat)) (w : World) : World :=
  mkWorld (nodes w) (arrays w) (slots w) (paths w) c (bindings w).
Definition set_bindings (b : gmap nat (gset string)) (w : World) : World :=
  mkWorld (nodes w) (arrays w) (slots w) (paths w) (pathCache w) b.

Definition with_node (n : option nat) (pa : NodePath) : NodePath :=
  mkPath n (parent pa) (container pa) (key pa) (_traverseFlags pa)
         (noScope pa) (scope pa).
Definition with_key (k : Key) (pa : NodePath) : NodePath :=
  mkPath (node pa) (parent pa) (container pa) k (_traverseFlags pa)
         (noScope pa) (scope pa).
Definition with_flags (f : Z) (pa : NodePath) : NodePath :=
  mkPath (node pa) (parent pa) (container pa) (key pa) f
         (noScope pa) (scope pa).

(** Array.prototype.splice(start, 1): the start index is taken from the end
    when negative and clamped to the length. *)
Definition splice_start (start : Z) (len : nat) : nat :=
  if (start <? 0)%Z then Z.to_nat (Z.max (Z.of_nat len + start) 0)
  else Z.to_nat (Z.min start (Z.of_nat len)).

Definition splice1 {A} (start : Z) (l : list A) : list A :=
  delete (splice_start start (length l)) l.

(** [this.key as number] *)
Definition key_number (k : Key) : Z :=
  match k with KNum i => i | KStr _ => 0%Z end.

Section Methods.
(** Flag bits declared next to the NodePath class. *)
Variables REMOVED SHOULD_SKIP : Z.

(** The table of removal hooks; a hook answers whether it handled the
    removal. *)
Variable hooks : list (nat → World → bool * World).

(** Modelled from the spec: a path can be marked removed, after which any
    further operation on it is rejected.  The accessor [removed] reads the
    REMOVED bit of the traversal flags. *)
Definition removed (pa : NodePath) : bool :=
  negb (Z.land (_traverseFlags pa) REMOVED =? 0)%Z.

Definition _assertUnremoved (p : nat) : Step unit :=
  λ w, if removed (this p w)
       then throw (CodeFrameError "NodePath has been removed so is read-only.") w
       else ret tt w.

(** Modelled from the spec: resynchronizes the path's view of its current
    container/key (positions shift as siblings are removed).  When the
    array no longer holds the node at the recorded index, the key becomes
    the index where the node is found. *)
Definition resync (p : nat) (w : World) : World :=
  let pa := this p w in
  if removed pa then w
  else match container pa, node pa with
       | Some (CArray a), Some n =>
           match arrays w !! a with
           | Some l =>
               if bool_decide ((0 ≤ key_number (key pa))%Z
                    ∧ l !! Z.to_nat (key_number (key pa)) = Some (Some n))
               then w
               else match list_find (λ x, x = Some n) l with
                    | Some (i, _) => set_this p (with_key (KNum (Z.of_nat i)) pa) w
                    | None => w
                    end
           | None => w
           end
       | _, _ => w
       end.

(** Modelled from the spec: removes a binding from its owning scope. *)
Definition removeBinding (sc : nat) (name : string) (w : World) : World :=
  set_bindings (alter (λ s, s ∖ {[name]}) sc (bindings w)) w.

(** Modelled from the spec: the node's own declared bindings
    ([getBindingIdentifiers]), read off the node. *)
Definition getBindingIdentifiers (p : nat) (w : World) : list string :=
  match node (this p w) with
  | Some n => match nodes w !! n with
              | Some nd => bindingIdentifiers nd
              | None => []
              end
  | None => []
  end.

Definition _removeFromScope (p : nat) (w : World) : World :=
  foldl (λ w1 name, removeBinding (scope (this p w1)) name w1) w
        (getBindingIdentifiers p w).

Fixpoint _callRemovalHooks_from (hs : list (nat → World → bool * World))
    (p : nat) (w : World) : bool * World :=
  match hs with
  | [] => (false, w)
  | fn :: rest =>
      let '(handled, w1) := fn p w in
      if handled then (true, w1) else _callRemovalHooks_from rest p w1
  end.

Definition _callRemovalHooks (p : nat) : Step bool :=
  λ w, let '(handled, w1) := _callRemovalHooks_from hooks p w in
       (inr handled, w1).

(** Modelled from the spec: the sibling at index [i] of array [a]
    ([getSibling(i).node]); none outside the array or at a hole. *)
Definition sibling_node (a : nat) (i : Z) (w : World) : option nat :=
  if (i <? 0)%Z then None
  else mjoin (arrays w !! a ≫= (λ l, l !! Z.to_nat i)).

(** Modelled from the spec: comments reassigned to a node go in front of
    its leading comments, or behind its trailing ones ([addComments]). *)
Definition addLeading (n : nat) (cs : list string) (w : World) : World :=
  set_nodes (alter (λ nd, mkNode (type nd) (bindingIdentifiers nd)
                             (cs ++ leadingComments nd) (trailingComments nd))
                   n (nodes w)) w.
Definition addTrailing (n : nat) (cs : list string) (w : World) : World :=
  set_nodes (alter (λ nd, mkNode (type nd) (bindingIdentifiers nd)
                             (leadingComments nd) (trailingComments nd ++ cs))
                   n (nodes w)) w.

(** Modelled from the spec: reassigns surrounding comments to a sibling.
    Leading comments go to the end of the previous sibling's trailing
    comments, trailing comments to the front of the next sibling's leading
    comments; with only one neighbour, that neighbour receives both. *)
Definition shareCommentsWithSiblings (p : nat) (w : World) : World :=
  let pa := this p w in
  match key pa, container pa, node pa with
  | KNum k, Some (CArray a), Some n =>
      match nodes w !! n with
      | Some nd =>
          let leading := leadingComments nd in
          let trailing := trailingComments nd in
          let prev := sibling_node a (k - 1) w in
          let next := sibling_node a (k + 1) w in
          let w1 :=
            match prev with
            | Some pn =>
                addTrailing pn
                  (leading ++ (if next is Some _ then [] else trailing)) w
            | None => w
            end in
          match next with
          | Some nn =>
              addLeading nn (trailing ++ (if prev is Some _ then [] else leading)) w1
          | None => w1
          end
      | None => w
      end
  | _, _, _ => w
  end.

(** Modelled from the spec: shifting sibling indices.  Every path kept in
    the parent node's path cache that sits in the same container at an
    index not below [fromIndex] has its key moved by [incrementBy]. *)
Definition updateSiblingKeys (p : nat) (fromIndex incrementBy : Z)
    (w : World) : World :=
  let pa := this p w in
  match parent pa with
  | None => w
  | Some par =>
      let cached := (map_to_list (pathCache w !!! par)).*2 in
      set_paths
        (map_imap (λ q qa,
           Some (match key qa with
                 | KNum j =>
                     if bool_decide (q ∈ cached)
                        && bool_decide (container qa = container pa)
                        && (fromIndex <=? j)%Z
                     then with_key (KNum (j + incrementBy)) qa
                     else qa
                 | KStr _ => qa
                 end)) (paths w)) w
  end.

(** Modelled from the spec: nulling a single-node slot via the generic
    replace-with-empty path.  The slot [container[key]] receives null, the
    path holds the empty node from then on, and its entry in the parent's
    path cache is re-keyed accordingly. *)
Definition _replaceWith_null (p : nat) : Step unit :=
  λ w,
    let pa := this p w in
    match container pa with
    | None => throw (ReferenceError "Container is falsy") w
    | Some c =>
        let w1 :=
          match c, key pa with
          | CObject o, KStr f => set_slots (<[(o, f) := None]> (slots w)) w
          | CObject o, KNum _ => w
          | CArray a, k =>
              set_arrays (alter (λ l, <[Z.to_nat (key_number k) := None]> l)
                                a (arrays w)) w
          end in
        let w2 :=
          match parent pa with
          | Some par =>
              set_pathCache
                (alter (λ m, delete (node pa) (<[None := p]> m)) par
                       (pathCache w1)) w1
          | None => w1
          end in
        ret tt (set_this p (with_node None pa) w2)
    end.

Definition _remove (p : nat) : Step unit :=
  λ w,
    let pa := this p w in
    match container pa with
    | Some (CArray a) =>
        let w1 := set_arrays (alter (splice1 (key_number (key pa))) a
                                    (arrays w)) w in
        ret tt (updateSiblingKeys p (key_number (key pa)) (-1) w1)
    | _ => _replaceWith_null p w
    end.

Definition _markRemoved (p : nat) : Step unit :=
  λ w,
    let pa := this p w in
    let pa1 := with_flags
                 (Z.lor (_traverseFlags pa) (Z.lor SHOULD_SKIP REMOVED)) pa in
    let w1 := set_this p pa1 w in
    match parent pa1 with
    | Some par =>
        match pathCache w1 !! par with
        | Some m =>
            let w2 := set_pathCache (<[par := delete (node pa1) m]>
                                       (pathCache w1)) w1 in
            ret tt (set_this p (with_node None pa1) w2)
        | None =>
            throw (TypeError "Cannot read properties of undefined") w1
        end
    | None => ret tt (set_this p (with_node None pa1) w1)
    end.

Definition remove (p : nat) : Step unit :=
  _assertUnremoved p ;;;
  modify (resync p) ;;;
  (λ w, if noScope (this p w) then ret tt w
        else modify (_removeFromScope p) w) ;;;
  bind (_callRemovalHooks p) (λ handled,
    if handled then _markRemoved p
    else
      modify (shareCommentsWithSiblings p) ;;;
      _remove p ;;;
      _markRemoved p).

End Methods.

(** ** A small store used to run the methods

    A block (node 0) whose body (array 0) holds three statements (nodes 1,
    2, 3, reached by paths 11, 12, 13), and an `if` (node 4) whose `test`
    slot holds node 5, reached by path 15.  Statement 2 declares `x` and
    carries a leading comment. *)
Definition stmt_path (n : nat) (i : Z) : NodePath :=
  mkPath (Some n) (Some 0%nat) (Some (CArray 0)) (KNum i) 0 false 0.

Definition block_world : World :=
  mkWorld
    (list_to_map [(0%nat, mkNode "BlockStatement" [] [] []);
                  (1%nat, mkNode "ExpressionStatement" [] [] []);
                  (2%nat, mkNode "VariableDeclaration" ["x"] ["c"] []);
                  (3%nat, mkNode "ExpressionStatement" [] [] []);
                  (4%nat, mkNode "IfStatement" [] [] []);
                  (5%nat, mkNode "Identifier" [] [] [])])
    (list_to_map [(0%nat, [Some 1%nat; Some 2%nat; Some 3%nat])])
    (list_to_map [((4%nat, "test"), Some 5%nat)])
    (list_to_map [(11%nat, stmt_path 1 0); (12%nat, stmt_path 2 1);
                  (13%nat, stmt_path 3 2);
                  (15%nat, mkPath (Some 5%nat) (Some 4%nat) (Some (CObject 4))
                                  (KStr "test") 0 false 0)])
    (list_to_map [(0%nat, list_to_map [(Some 1%nat, 11%nat); (Some 2%nat, 12%nat);
                                    (Some 3%nat, 13%nat)]);
                  (4%nat, list_to_map [(Some 5%nat, 15%nat)])])
    (list_to_map [(0%nat, {["x"; "y"]})]).

End Removal.

(* ===================================================================== *)
(** * Class static blocks                                                *)
(* ===================================================================== *)

Module StaticBlock.

(** Expressions and statements, as far as the visitor looks into them. *)
#[local] Unset Elimination Schemes.
Inductive Expression :=
| Expr (id : nat)
| CallExpression (callee : Expression) (arguments : list Expression)
| ArrowFunctionExpression (params : list string) (body : list Statement)
with Statement :=
| ExpressionStatement (expression : Expression)
| Stmt (id : nat).
#[local] Set Elimination Schemes.

(** The key of an auto-accessor: a private name, or any other key. *)
Inductive AccessorKey := PrivateName (name : string) | PublicKey (id : nat).

(** Members of a class body.  [isPrivate] holds of the first two, and
    [isStaticBlock] of the third.  An auto-accessor may have a private name
    for its key; it is a [ClassAccessorProperty] all the same. *)
Inductive ClassMember :=
| ClassPrivateProperty (key : string) (value : option Expression)
    (decorators : list Expression) (static : bool)
| ClassPrivateMethod (key : string)
| StaticBlock (body : list Statement)
| Member (id : nat)
| ClassAccessorProperty (key : AccessorKey) (value : option Expression)
    (static : bool).

Definition isStaticBlock (m : ClassMember) : bool :=
  match m with StaticBlock _ => true | _ => false end.

(** [path.isPrivate()]: the node is a [ClassPrivateProperty] or a
    [ClassPrivateMethod]. *)
Definition isPrivate (m : ClassMember) : bool :=
  match m with
  | ClassPrivateProperty _ _ _ _ | ClassPrivateMethod _ => true
  | _ => false
  end.

(** The private name a member declares in the class body, whatever kind of
    member it is. *)
Definition declaredPrivateName (m : ClassMember) : option string :=
  match m with
  | ClassPrivateProperty k _ _ _ | ClassPrivateMethod k => Some k
  | ClassAccessorProperty (PrivateName k) _ _ => Some k
  | _ => None
  end.

(** [path.get("key.id").node.name] when [path.isPrivate()]. *)
Definition privateName (m : ClassMember) : option string :=
  match m with
  | ClassPrivateProperty k _ _ _ | ClassPrivateMethod k => Some k
  | _ => None
  end.

Section Visitor.
(** [scope._generateUid(name, i)] *)
Variable _generateUid : string → nat → string.
(** [t.inheritsComments(child, parent)] *)
Variable inheritsComments : Expression → Statement → Expression.

(** The do-while loop of [generateUid], from candidate [i] on. *)
Fixpoint generateUid_from (fuel : nat) (i : nat) (denyList : gset string)
    : option string :=
  match fuel with
  | 0 => None
  | S fuel' =>
      let uid := _generateUid "" i in
      if bool_decide (uid ∈ denyList)
      then generateUid_from fuel' (S i) denyList
      else Some uid
  end.

Definition generateUid (fuel : nat) (denyList : gset string) : option string :=
  generateUid_from fuel 1 denyList.

(** First loop of the visitor: the private names the class body declares. *)
Definition collectPrivateNames (body : list ClassMember) : gset string :=
  foldl (λ privateNames m,
           match privateName m with
           | Some name => {[name]} ∪ privateNames
           | None => privateNames
           end) ∅ body.

Definition replacement (blockBody : list Statement) : Expression :=
  match blockBody with
  | [ExpressionStatement e] => inheritsComments e (ExpressionStatement e)
  | _ => CallExpression (ArrowFunctionExpression [] blockBody) []
  end.

(** Second loop of the visitor. *)
Fixpoint replaceStaticBlocks (fuel : nat) (privateNames : gset string)
    (body : list ClassMember) : option (list ClassMember) :=
  match body with
  | [] => Some []
  | StaticBlock blockBody :: rest =>
      staticBlockPrivateId ← generateUid fuel privateNames;
      rest' ← replaceStaticBlocks fuel ({[staticBlockPrivateId]} ∪ privateNames) rest;
      Some (ClassPrivateProperty staticBlockPrivateId
              (Some (replacement blockBody)) [] true :: rest')
  | m :: rest =>
      rest' ← replaceStaticBlocks fuel privateNames rest;
      Some (m :: rest')
  end.

Definition ClassBody (fuel : nat) (body : list ClassMember)
    : option (list ClassMember) :=
  replaceStaticBlocks fuel (collectPrivateNames body) body.

(** The class body in which the static blocks have become, in order, static
    private properties named by [uids]; every other member stays. *)
Fixpoint withStaticProperties (uids : list string) (body : list ClassMember)
    : list ClassMember :=
  match body with
  | [] => []
  | StaticBlock blockBody :: rest =>
      match uids with
      | u :: us =>
          ClassPrivateProperty u (Some (replacement blockBody)) [] true
          :: withStaticProperties us rest
      | [] => StaticBlock blockBody :: rest
      end
  | m :: rest => m :: withStaticProperties uids rest
  end.

End Visitor.

(** The private names a class body declares. *)
Definition declaredPrivateNames (body : list ClassMember) : gset string :=
  list_to_set (omap declaredPrivateName body).

(** A class body with two static blocks among private members. *)
Definition example_body : list ClassMember :=
  [ClassPrivateProperty "_" None [] false;
   StaticBlock [ExpressionStatement (Expr 1)];
   Member 0;
   StaticBlock [Stmt 1; Stmt 2];
   ClassPrivateMethod "_3"].

(** Modelled from the spec: the scope's candidate identifiers, built by
    appending a numeric suffix to a base name.  A candidate is an underscore,
    the base name, and the counter once it exceeds one. *)
Definition scope_generateUid (name : string) (i : nat) : string :=
  "_" ++ name ++ (if bool_decide (1 < i) then pretty i else "").

End StaticBlock.

(* ===================================================================== *)
(** * Flow union types                                                   *)
(* ===================================================================== *)

Module FlowUnion.

(** Flow type annotations: a union node, or any other annotation, named
    and possibly applied to type parameters. *)
#[local] Unset Elimination Schemes.
Inductive FlowType :=
| NamedType (name : string) (typeParameters : list FlowType)
| UnionTypeAnnotation (types : list FlowType).
#[local] Set Elimination Schemes.

Definition isUnionTypeAnnotation (t : FlowType) : bool :=
  match t with UnionTypeAnnotation _ => true | _ => false end.

(** Structural induction through the lists of children. *)
Fixpoint FlowType_ind (P : FlowType → Prop)
    (Hnamed : ∀ name ps, Forall P ps → P (NamedType name ps))
    (Hunion : ∀ ts, Forall P ts → P (UnionTypeAnnotation ts))
    (t : FlowType) : P t :=
  let fix all (l : list FlowType) : Forall P l :=
    match l with
    | [] => List.Forall_nil P
    | x :: xs =>
        List.Forall_cons P x xs (FlowType_ind P Hnamed Hunion x) (all xs)
    end in
  match t with
  | NamedType name ps => Hnamed name ps (all ps)
  | UnionTypeAnnotation ts => Hunion ts (all ts)
  end.

(** Pointwise comparison of two lists. *)
Definition list_eqb {A} (eqb : A → A → bool) : list A → list A → bool :=
  fix go (l1 l2 : list A) : bool :=
    match l1, l2 with
    | [], [] => true
    | x :: xs, y :: ys => eqb x y && go xs ys
    | _, _ => false
    end.

(** Structural equality of annotations. *)
Fixpoint FlowType_eqb (a b : FlowType) : bool :=
  match a, b with
  | NamedType n ps, NamedType m qs =>
      String.eqb n m && list_eqb FlowType_eqb ps qs
  | UnionTypeAnnotation ts, UnionTypeAnnotation us =>
      list_eqb FlowType_eqb ts us
  | _, _ => false
  end.

(** The members of an annotation once nested unions are opened up. *)
Fixpoint flatten (t : FlowType) : list FlowType :=
  match t with
  | UnionTypeAnnotation ts => flat_map flatten ts
  | _ => [t]
  end.

(** Pushes onto [types] each annotation that is not yet there. *)
Fixpoint pushUnique (types : list FlowType) (nodes : list FlowType)
    : list FlowType :=
  match nodes with
  | [] => types
  | node :: rest =>
      if existsb (FlowType_eqb node) types then pushUnique types rest
      else pushUnique (types ++ [node])%list rest
  end.

(** Modelled from the spec: flattens and removes duplicate members
    (structural equality); the function of
    modifications/flow/removeTypeDuplicates. *)
Definition removeTypeDuplicates (types : list FlowType) : list FlowType :=
  pushUnique [] (flat_map flatten types).

Section Builder.
Variable removeTypeDuplicates : list FlowType → list FlowType.

Definition createFlowUnionType (types : list FlowType) : FlowType :=
  let flattened := removeTypeDuplicates types in
  match flattened with
  | [t] => t
  | _ => UnionTypeAnnotation flattened
  end.
End Builder.

End FlowUnion.

(* ===================================================================== *)
(** * Node validation                                                    *)
(* ===================================================================== *)

Module Validate.

Record Node := mkNode { type : string; uid : nat }.

(** A field value: absent, null, a node, or anything else (a string, a
    number, a boolean, an array), which has no [type] property. *)
Inductive Value := VUndefined | VNull | VNode (n : Node) | VOther (id : nat).

(** [val == null] *)
Definition isNullish (val : Value) : bool :=
  match val with VUndefined | VNull => true | _ => false end.

(** [val.type] *)
Definition valueType (val : Value) : option string :=
  match val with VNode n => Some (type n) | _ => None end.

(** A validator inspects its arguments and either returns or throws. *)
Definition Validator : Type := option Node → string → Value → option string.

Record FieldOptions := mkField {
  validate_fn : option Validator;
  optional : bool
}.

(** What a run of [validate] does: the validators it invokes, in order, and
    the exception that ends it, if any. *)
Inductive Call :=
| Invoke (v : Validator) (node : option Node) (key : string) (val : Value).

Definition Run : Type := list Call * option string.

Definition skip : Run := ([], None).

Definition invoke (v : Validator) (node : option Node) (key : string)
    (val : Value) : Run :=
  ([Invoke v node key val], v node key val).

(** Sequencing: the second part runs only if the first returned. *)
Definition andThen (a b : Run) : Run :=
  match a with
  | (calls, Some e) => (calls, Some e)
  | (calls, None) => ((calls ++ fst b)%list, snd b)
  end.

Section Tables.
Variable NODE_FIELDS : gmap string (gmap string FieldOptions).
Variable NODE_PARENT_VALIDATIONS : gmap string Validator.

Definition validateField (node : option Node) (key : string) (val : Value)
    (field : option FieldOptions) : Run :=
  match field with
  | None => skip
  | Some f =>
      match validate_fn f with
      | None => skip
      | Some v =>
          if optional f && isNullish val then skip
          else invoke v node key val
      end
  end.

Definition validateChild (node : option Node) (key : string) (val : Value)
    : Run :=
  if isNullish val then skip
  else
    match valueType val ≫= (λ t, NODE_PARENT_VALIDATIONS !! t) with
    | None => skip
    | Some v => invoke v node key val
    end.

Definition validate (node : option Node) (key : string) (val : Value) : Run :=
  match node with
  | None => skip
  | Some n =>
      match NODE_FIELDS !! type n with
      | None => skip
      | Some fields =>
          let field := fields !! key in
          andThen (validateField node key val field)
                  (validateChild node key val)
      end
  end.
End Tables.

(** Tables for running the function: an `if` statement with a required
    `test` and an optional `alternate`, and identifiers that check where
    they are placed. *)
Definition expectNode : Validator :=
  λ _ _ val, match val with VNode _ => None | _ => Some "expected a node" end.
Definition identifierPlacement : Validator :=
  λ _ key _, if String.eqb key "test" then None else Some "misplaced identifier".

Definition example_fields : gmap string (gmap string FieldOptions) :=
  {[ "IfStatement" :=
       {[ "test" := mkField (Some expectNode) false;
          "alternate" := mkField (Some expectNode) true ]} ]}.
Definition example_parent_validations : gmap string Validator :=
  {[ "Identifier" := identifierPlacement ]}.

End Validate.

(* ===================================================================== *)
(** * Text emission engine: words, tokens, spaces and newlines           *)
(* ===================================================================== *)

Module Printer.

(** Character codes, as the [charcodes] package names them. *)
Module charCodes.
Definition lineFeed : Z := 10.
Definition space : Z := 32.
Definition exclamationMark : Z := 33.
Definition asterisk : Z := 42.
Definition plusSign : Z := 43.
Definition dash : Z := 45.
Definition dot : Z := 46.
Definition slash : Z := 47.
Definition equalsTo : Z := 61.
End charCodes.

(** [str.charCodeAt(i)]; NaN, which equals no character code, is -1. *)
Definition charCodeAt (str : string) (i : nat) : Z :=
  match String.get i str with
  | Some c => Z.of_nat (nat_of_ascii c)
  | None => (-1)%Z
  end.

Definition lastCharCode (str : string) : Z :=
  charCodeAt str (String.length str - 1).

(** [hasPrefix pre str]: [str] starts with [pre]. *)
Fixpoint hasPrefix (pre str : string) : bool :=
  match pre, str with
  | "", _ => true
  | String a pre', String b str' => Ascii.eqb a b && hasPrefix pre' str'
  | _, _ => false
  end.

(** ** The regular expressions of the module *)

(** [SCIENTIFIC_NOTATION = /e/i] *)
Fixpoint SCIENTIFIC_NOTATION (str : string) : bool :=
  match str with
  | "" => false
  | String c rest =>
      Ascii.eqb c "e" || Ascii.eqb c "E" || SCIENTIFIC_NOTATION rest
  end.

(** [NON_DECIMAL_LITERAL = /^0[box]/] *)
Definition NON_DECIMAL_LITERAL (str : string) : bool :=
  match str with
  | String z (String c _) =>
      Ascii.eqb z "0" && (Ascii.eqb c "b" || Ascii.eqb c "o" || Ascii.eqb c "x")
  | _ => false
  end.

Fixpoint all_zeros (str : string) : bool :=
  match str with
  | "" => true
  | String c rest => Ascii.eqb c "0" && all_zeros rest
  end.

(** [ZERO_DECIMAL_INTEGER = /\.0+$/]: a dot followed by zeros, at least one,
    up to the end. *)
Fixpoint ZERO_DECIMAL_INTEGER (str : string) : bool :=
  match str with
  | "" => false
  | String c rest =>
      (Ascii.eqb c "." && negb (String.eqb rest "") && all_zeros rest)
      || ZERO_DECIMAL_INTEGER rest
  end.

(** The ASCII white space that [\s] matches. *)
Definition is_whitespace (c : ascii) : bool :=
  let n := nat_of_ascii c in
  ((9 <=? n)%nat && (n <=? 13)%nat) || (n =? 32)%nat.

Fixpoint trim_start (str : string) : string :=
  match str with
  | String c rest => if is_whitespace c then trim_start rest else str
  | "" => ""
  end.

(** [PURE_ANNOTATION_RE = /^\s*[@#]__PURE__\s*$/] *)
Definition PURE_ANNOTATION_RE (str : string) : bool :=
  match trim_start str with
  | String c rest =>
      (Ascii.eqb c "@" || Ascii.eqb c "#")
      && hasPrefix "__PURE__" rest
      && String.eqb (trim_start (String.substring 8 (String.length rest - 8) rest)) ""
  | "" => false
  end.

(** ** The printer's state *)

Record Format := mkFormat {
  retainLines : bool;
  compact : bool;
  concise : bool;
  auxiliaryCommentBefore : string;
  auxiliaryCommentAfter : string
}.

(** The methods of the [Buffer] class that the printer calls. *)
Class Buffer (Buf : Type) := {
  getLastChar : Buf → Z;
  hasContent : Buf → bool;
  getNewlineCount : Buf → Z;
  append : string → bool → Buf → Buf;
  appendChar : Z → Buf → Buf;
  queue : Z → Buf → Buf;
  queueIndentation : Z → Z → Buf → Buf
}.

(** [_parenPushNewlineState] refers to a latch object; [parenPrinted] holds
    the latches whose [printed] field has been set. *)
Record Printer (Buf : Type) := mkPrinter {
  format : Format;
  _buf : Buf;
  _indent : Z;
  _indentChar : Z;
  _indentRepeat : Z;
  _insideAux : bool;
  _parenPushNewlineState : option nat;
  parenPrinted : list nat;
  _noLineTerminator : bool;
  _printAuxAfterOnNextUserNode : bool;
  _endsWithInteger : bool;
  _endsWithWord : bool;
  _endsWithInnerRaw : bool;
  _indentInnerComments : bool
}.
Arguments mkPrinter {Buf}.
Arguments format {Buf}.
Arguments _buf {Buf}.
Arguments _indent {Buf}.
Arguments _indentChar {Buf}.
Arguments _indentRepeat {Buf}.
Arguments _insideAux {Buf}.
Arguments _parenPushNewlineState {Buf}.
Arguments parenPrinted {Buf}.
Arguments _noLineTerminator {Buf}.
Arguments _printAuxAfterOnNextUserNode {Buf}.
Arguments _endsWithInteger {Buf}.
Arguments _endsWithWord {Buf}.
Arguments _endsWithInnerRaw {Buf}.
Arguments _indentInnerComments {Buf}.

Section Setters.
Context {Buf : Type}.
Implicit Type p : Printer Buf.

Definition set_buf (b : Buf) p : Printer Buf :=
  mkPrinter (format p) b (_indent p) (_indentChar p) (_indentRepeat p)
    (_insideAux p) (_parenPushNewlineState p) (parenPrinted p)
    (_noLineTerminator p) (_printAuxAfterOnNextUserNode p)
    (_endsWithInteger p) (_endsWithWord p) (_endsWithInnerRaw p)
    (_indentInnerComments p).
Definition set_indent (n : Z) p : Printer Buf :=
  mkPrinter (format p) (_buf p) n (_indentChar p) (_indentRepeat p)
    (_insideAux p) (_parenPushNewlineState p) (parenPrinted p)
    (_noLineTerminator p) (_printAuxAfterOnNextUserNode p)
    (_endsWithInteger p) (_endsWithWord p) (_endsWithInnerRaw p)
    (_indentInnerComments p).
Definition set_parenPushNewlineState (s : option nat) p : Printer Buf :=
  mkPrinter (format p) (_buf p) (_indent p) (_indentChar p) (_indentRepeat p)
    (_insideAux p) s (parenPrinted p)
    (_noLineTerminator p) (_printAuxAfterOnNextUserNode p)
    (_endsWithInteger p) (_endsWithWord p) (_endsWithInnerRaw p)
    (_indentInnerComments p).
Definition set_parenPrinted (l : list nat) p : Printer Buf :=
  mkPrinter (format p) (_buf p) (_indent p) (_indentChar p) (_indentRepeat p)
    (_insideAux p) (_parenPushNewlineState p) l
    (_noLineTerminator p) (_printAuxAfterOnNextUserNode p)
    (_endsWithInteger p) (_endsWithWord p) (_endsWithInnerRaw p)
    (_indentInnerComments p).
Definition set_noLineTerminator (b : bool) p : Printer Buf :=
  mkPrinter (format p) (_buf p) (_indent p) (_indentChar p) (_indentRepeat p)
    (_insideAux p) (_parenPushNewlineState p) (parenPrinted p)
    b (_printAuxAfterOnNextUserNode p)
    (_endsWithInteger p) (_endsWithWord p) (_endsWithInnerRaw p)
    (_indentInnerComments p).
Definition set_printAuxAfterOnNextUserNode (b : bool) p : Printer Buf :=
  mkPrinter (format p) (_buf p) (_indent p) (_indentChar p) (_indentRepeat p)
    (_insideAux p) (_parenPushNewlineState p) (parenPrinted p)
    (_noLineTerminator p) b
    (_endsWithInteger p) (_endsWithWord p) (_endsWithInnerRaw p)
    (_indentInnerComments p).
Definition set_endsWithInteger (b : bool) p : Printer Buf :=
  mkPrinter (format p) (_buf p) (_indent p) (_indentChar p) (_indentRepeat p)
    (_insideAux p) (_parenPushNewlineState p) (parenPrinted p)
    (_noLineTerminator p) (_printAuxAfterOnNextUserNode p)
    b (_endsWithWord p) (_endsWithInnerRaw p) (_indentInnerComments p).
Definition set_endsWithWord (b : bool) p : Printer Buf :=
  mkPrinter (format p) (_buf p) (_indent p) (_indentChar p) (_indentRepeat p)
    (_insideAux p) (_parenPushNewlineState p) (parenPrinted p)
    (_noLineTerminator p) (_printAuxAfterOnNextUserNode p)
    (_endsWithInteger p) b (_endsWithInnerRaw p) (_indentInnerComments p).
Definition set_innerComments (raw indentInner : bool) p : Printer Buf :=
  mkPrinter (format p) (_buf p) (_indent p) (_indentChar p) (_indentRepeat p)
    (_insideAux p) (_parenPushNewlineState p) (parenPrinted p)
    (_noLineTerminator p) (_printAuxAfterOnNextUserNode p)
    (_endsWithInteger p) (_endsWithWord p) raw indentInner.
End Setters.

(** ** The emission methods *)

Section Methods.
Context {Buf : Type} `{!Buffer Buf}.
Implicit Type p : Printer Buf.

(** The comment printers reach into the generator functions; here they are
    transformations of the printer state. *)
Variable printInnerComments : Printer Buf → Printer Buf.
Variable _printComment : string → Printer Buf → Printer Buf.
(** [Number.isInteger(+str)] *)
Variable Number_isInteger : string → bool.

Definition getLastCharP p : Z := getLastChar (_buf p).

Definition endsWith (char : Z) p : bool := (getLastCharP p =? char)%Z.

Definition indent p : Printer Buf :=
  if compact (format p) || concise (format p) then p
  else set_indent (_indent p + 1) p.

Definition _getIndent p : Z := (_indentRepeat p * _indent p)%Z.

Definition _maybeIndent (firstChar : Z) p : Printer Buf :=
  if negb (_indent p =? 0)%Z
     && negb (firstChar =? charCodes.lineFeed)%Z
     && endsWith charCodes.lineFeed p
  then set_buf (queueIndentation (_indentChar p) (_getIndent p) (_buf p)) p
  else p.

Definition _maybePrintInnerComments p : Printer Buf :=
  let p1 := if _endsWithInnerRaw p then printInnerComments p else p in
  set_innerComments true true p1.

Definition _printAuxBeforeComment p : Printer Buf :=
  if _printAuxAfterOnNextUserNode p then p
  else
    let p1 := set_printAuxAfterOnNextUserNode true p in
    let comment := auxiliaryCommentBefore (format p1) in
    if String.eqb comment "" then p1 else _printComment comment p1.

Definition _printAuxAfterComment p : Printer Buf :=
  if negb (_printAuxAfterOnNextUserNode p) then p
  else
    let p1 := set_printAuxAfterOnNextUserNode false p in
    let comment := auxiliaryCommentAfter (format p1) in
    if String.eqb comment "" then p1 else _printComment comment p1.

Definition _maybeAddAuxComment (enteredPositionlessNode : bool) p
    : Printer Buf :=
  let p1 := if enteredPositionlessNode then _printAuxBeforeComment p else p in
  if negb (_insideAux p1) then _printAuxAfterComment p1 else p1.

(** Number of leading spaces: where the scan of [_maybeAddParen] stops. *)
Fixpoint leadingSpaces (str : string) : nat :=
  match str with
  | String c rest => if Ascii.eqb c " " then S (leadingSpaces rest) else 0
  | "" => 0
  end.

Section Emit.
(** The nested call [this.token("(")] made while a terminatorless latch is
    set. *)
Variable tokenOpenParen : Printer Buf → Printer Buf.

Definition openParen (latch : nat) p : Printer Buf :=
  let p1 := indent (tokenOpenParen p) in
  set_parenPrinted (latch :: parenPrinted p1) p1.

Definition _maybeAddParenChar (char : Z) p : Printer Buf :=
  match _parenPushNewlineState p with
  | None => p
  | Some latch =>
      if (char =? charCodes.space)%Z then p
      else if negb (char =? charCodes.lineFeed)%Z
      then set_parenPushNewlineState None p
      else openParen latch p
  end.

Definition _maybeAddParen (str : string) p : Printer Buf :=
  match _parenPushNewlineState p with
  | None => p
  | Some latch =>
      let len := String.length str in
      let i := leadingSpaces str in
      if (i =? len)%nat then p
      else
        let cha := charCodeAt str i in
        if negb (cha =? charCodes.lineFeed)%Z then
          if negb (cha =? charCodes.slash)%Z || (i + 1 =? len)%nat
          then set_parenPushNewlineState None p
          else
            let chaPost := charCodeAt str (i + 1) in
            if (chaPost =? charCodes.asterisk)%Z then
              if PURE_ANNOTATION_RE
                   (String.substring (i + 2) (len - 2 - (i + 2)) str)
              then p
              else openParen latch p
            else if negb (chaPost =? charCodes.slash)%Z
            then set_parenPushNewlineState None p
            else openParen latch p
        else openParen latch p
  end.

Definition _append (str : string) (maybeNewline : bool) p : Printer Buf :=
  let p1 := _maybeAddParen str p in
  let p2 := _maybeIndent (charCodeAt str 0) p1 in
  let p3 := set_buf (append str maybeNewline (_buf p2)) p2 in
  set_endsWithInteger false (set_endsWithWord false p3).

Definition _appendChar (char : Z) p : Printer Buf :=
  let p1 := _maybeAddParenChar char p in
  let p2 := _maybeIndent char p1 in
  let p3 := set_buf (appendChar char (_buf p2)) p2 in
  set_endsWithInteger false (set_endsWithWord false p3).

Definition _queue (char : Z) p : Printer Buf :=
  let p1 := _maybeAddParenChar char p in
  let p2 := _maybeIndent char p1 in
  let p3 := set_buf (queue char (_buf p2)) p2 in
  set_endsWithInteger false (set_endsWithWord false p3).

Definition _space p : Printer Buf := _queue charCodes.space p.

Definition _newline p : Printer Buf := _queue charCodes.lineFeed p.

Definition space (force : bool) p : Printer Buf :=
  if compact (format p) then p
  else if force then _space p
  else if hasContent (_buf p) then
    let lastCp := getLastCharP p in
    if negb (lastCp =? charCodes.space)%Z
       && negb (lastCp =? charCodes.lineFeed)%Z
    then _space p else p
  else p.

Definition word (str : string) (noLineTerminatorAfter : bool) p
    : Printer Buf :=
  let p1 := _maybePrintInnerComments p in
  let p2 :=
    if _endsWithWord p1
       || ((charCodeAt str 0 =? charCodes.slash)%Z
           && endsWith charCodes.slash p1)
    then _space p1 else p1 in
  let p3 := _maybeAddAuxComment false p2 in
  let p4 := _append str false p3 in
  set_noLineTerminator noLineTerminatorAfter (set_endsWithWord true p4).

Definition number (str : string) p : Printer Buf :=
  let p1 := word str false p in
  set_endsWithInteger
    (Number_isInteger str
     && negb (NON_DECIMAL_LITERAL str)
     && negb (SCIENTIFIC_NOTATION str)
     && negb (ZERO_DECIMAL_INTEGER str)
     && negb (lastCharCode str =? charCodes.dot)%Z) p1.

Definition token (str : string) (maybeNewline : bool) p : Printer Buf :=
  let p1 := _maybePrintInnerComments p in
  let lastChar := getLastCharP p1 in
  let strFirst := charCodeAt str 0 in
  let p2 :=
    if ((lastChar =? charCodes.exclamationMark)%Z
        && (String.eqb str "--" || (strFirst =? charCodes.equalsTo)%Z))
       || ((strFirst =? charCodes.plusSign)%Z
           && (lastChar =? charCodes.plusSign)%Z)
       || ((strFirst =? charCodes.dash)%Z && (lastChar =? charCodes.dash)%Z)
       || ((strFirst =? charCodes.dot)%Z && _endsWithInteger p1)
    then _space p1 else p1 in
  let p3 := _maybeAddAuxComment false p2 in
  let p4 := _append str maybeNewline p3 in
  set_noLineTerminator false p4.

Definition tokenChar (char : Z) p : Printer Buf :=
  let p1 := _maybePrintInnerComments p in
  let lastChar := getLastCharP p1 in
  let p2 :=
    if ((char =? charCodes.plusSign)%Z && (lastChar =? charCodes.plusSign)%Z)
       || ((char =? charCodes.dash)%Z && (lastChar =? charCodes.dash)%Z)
       || ((char =? charCodes.dot)%Z && _endsWithInteger p1)
    then _space p1 else p1 in
  let p3 := _maybeAddAuxComment false p2 in
  let p4 := _appendChar char p3 in
  set_noLineTerminator false p4.

(** The loop [for (j = 0; j < i; j++) this._newline()]. *)
Fixpoint _newlines (count : nat) p : Printer Buf :=
  match count with
  | 0 => p
  | S count' => _newlines count' (_newline p)
  end.

Definition newline (i : Z) (force : bool) p : Printer Buf :=
  if (i <=? 0)%Z then p
  else if negb force && (retainLines (format p) || compact (format p)) then p
  else if negb force && concise (format p) then space false p
  else
    let i1 := if (i >? 2)%Z then 2%Z else i in
    let i2 := (i1 - getNewlineCount (_buf p))%Z in
    _newlines (Z.to_nat i2) p.

End Emit.

(** [this.token("(")] as the latch calls it: the call appends a token that
    is neither space, newline nor comment, so it clears the latch and never
    reaches a further nested call. *)
Definition tokenOpenParen : Printer Buf → Printer Buf :=
  token (λ p, p) "(" false.

End Methods.

(** ** The adjacency rules, as the emission engine is described

    Each rule is stated on the token to append, the last character written
    and the two flags that remember what the last token was. *)

Definition startsWith (c : ascii) (str : string) : bool :=
  match str with
  | String c' _ => Ascii.eqb c' c
  | "" => false
  end.

(** [word]: after a word-like token, or a `/` straight after a `/`. *)
Definition wordNeedsSpace (endsWithWord : bool) (lastChar : Z) (str : string)
    : bool :=
  endsWithWord || (startsWith "/" str && (lastChar =? charCodes.slash)%Z).

(** [token]: `--` or a token starting with `=` after `!`; `+` after `+`;
    `-` after `-`; a token starting with `.` after a bare integer. *)
Definition tokenNeedsSpace (endsWithInteger : bool) (lastChar : Z)
    (str : string) : bool :=
  ((lastChar =? charCodes.exclamationMark)%Z
   && (String.eqb str "--" || startsWith "=" str))
  || (startsWith "+" str && (lastChar =? charCodes.plusSign)%Z)
  || (startsWith "-" str && (lastChar =? charCodes.dash)%Z)
  || (startsWith "." str && endsWithInteger).

(** [tokenChar]: `+` after `+`; `-` after `-`; `.` after a bare integer. *)
Definition tokenCharNeedsSpace (endsWithInteger : bool) (lastChar char : Z)
    : bool :=
  ((char =? charCodes.plusSign)%Z && (lastChar =? charCodes.plusSign)%Z)
  || ((char =? charCodes.dash)%Z && (lastChar =? charCodes.dash)%Z)
  || ((char =? charCodes.dot)%Z && endsWithInteger).

(** A bare integer literal, given what [Number.isInteger(+str)] answers: no
    `0b`, `0o` or `0x` prefix, no exponent marker, no trailing `.0...0`, no
    trailing dot. *)
Definition bareInteger (Number_isInteger : string → bool) (str : string)
    : bool :=
  Number_isInteger str
  && negb (hasPrefix "0b" str || hasPrefix "0o" str || hasPrefix "0x" str)
  && negb (SCIENTIFIC_NOTATION str)
  && negb (ZERO_DECIMAL_INTEGER str)
  && negb (lastCharCode str =? charCodes.dot)%Z.

(** All the adjacency cases at once, applied to any token-append operation
    alike. *)
Definition anyTokenNeedsSpace (wordLike endsWithWord endsWithInteger : bool)
    (lastChar : Z) (str : string) : bool :=
  (wordLike && endsWithWord)
  || ((lastChar =? charCodes.exclamationMark)%Z
      && (String.eqb str "--" || startsWith "=" str))
  || (startsWith "+" str && (lastChar =? charCodes.plusSign)%Z)
  || (startsWith "-" str && (lastChar =? charCodes.dash)%Z)
  || (startsWith "/" str && (lastChar =? charCodes.slash)%Z)
  || (startsWith "." str && endsWithInteger).

(** A buffer that keeps every character handed to it, newest first; it
    stands in for the [Buffer] class when the printer is run. *)
Definition charCodes_of (str : string) : list Z :=
  (λ c, Z.of_nat (nat_of_ascii c)) <$> list_ascii_of_string str.

Fixpoint leadingLineFeeds (chars : list Z) : Z :=
  match chars with
  | c :: rest =>
      if (c =? charCodes.lineFeed)%Z then (1 + leadingLineFeeds rest)%Z else 0%Z
  | [] => 0%Z
  end.

#[global] Instance plainBuffer : Buffer (list Z) := {|
  getLastChar b := default 0%Z (head b);
  hasContent b := negb (bool_decide (b = []));
  getNewlineCount b := leadingLineFeeds b;
  append str _ b := (rev (charCodes_of str) ++ b)%list;
  appendChar c b := c :: b;
  queue c b := c :: b;
  queueIndentation c n b := (replicate (Z.to_nat n) c ++ b)%list
|}.

Definition plainPrinter (fmt : Format) (written : list Z) : Printer (list Z) :=
  mkPrinter fmt written 0 32 2 false None [] false false false false false true.

(** The printer used to run the methods: the plain buffer, no inner or
    auxiliary comments, and decimal digit strings as the integers. *)
Definition run_nested : Printer (list Z) → Printer (list Z) :=
  tokenOpenParen (λ q, q) (λ _ q, q).
Definition run_word (str : string) :=
  word (λ q, q) (λ _ q, q) run_nested str false.
Definition run_token (str : string) :=
  token (λ q, q) (λ _ q, q) run_nested str false.
Definition run_tokenChar (char : Z) :=
  tokenChar (λ q, q) (λ _ q, q) run_nested char.
Definition plainFormat : Format := mkFormat false false false "" "".
Definition conciseFormat : Format := mkFormat false false true "" "".
Definition compactFormat : Format := mkFormat false true false "" "".
Definition run_space (force : bool) := space run_nested force.

End Printer.

(* ===================================================================== *)
(** * Environment preset                                                 *)
(* ===================================================================== *)

Module PresetEnv.

(** ** Module plugins *)

Definition dynamicImportWarning : string :=
  "Dynamic import can only be supported when transforming ES modules"
  ++ " to AMD, CommonJS or SystemJS. Only the parser plugin will be enabled.".

(** [getModulesPluginNames]: the warnings written to the console and the
    plugin names returned.  [modules] is [None] for [false]; a table entry
    counts when it is a non-empty string. *)
Definition getModulesPluginNames
    (modules : option string) (transformations : gmap string string)
    (shouldTransformESM shouldTransformDynamicImport
     shouldTransformExportNamespaceFrom shouldParseTopLevelAwait : bool)
    : list string * list string :=
  let '(warnings, names1) :=
    match modules with
    | Some m =>
        match transformations !! m with
        | Some t =>
            if String.eqb t "" then ([], ["syntax-dynamic-import"])
            else
              let names0 := if shouldTransformESM then [t] else [] in
              if shouldTransformDynamicImport && shouldTransformESM
                 && negb (String.eqb m "umd")
              then ([], names0 ++ ["transform-dynamic-import"])%list
              else ((if shouldTransformDynamicImport
                     then [dynamicImportWarning] else []),
                    (names0 ++ ["syntax-dynamic-import"])%list)
        | None => ([], ["syntax-dynamic-import"])
        end
    | None => ([], ["syntax-dynamic-import"])
    end in
  let names2 :=
    (names1 ++ [if shouldTransformExportNamespaceFrom
                then "transform-export-namespace-from"
                else "syntax-export-namespace-from"])%list in
  let names3 :=
    if shouldParseTopLevelAwait
    then (names2 ++ ["syntax-top-level-await"])%list else names2 in
  (warnings, (names3 ++ ["syntax-import-meta"])%list).

(** What the caller of the toolchain declares about itself. *)
Record CallerMetadata := mkCaller {
  supportsStaticESM : bool;
  supportsDynamicImport : bool;
  supportsExportNamespaceFrom : bool;
  supportsTopLevelAwait : bool
}.

(** [api.caller?.(cb)]: [apiCaller] is [None] when the host has no
    [api.caller]; the metadata handed to [cb] may itself be undefined. *)
Definition callerSupports (apiCaller : option (option CallerMetadata))
    (flag : CallerMetadata → bool) : bool :=
  match apiCaller with
  | Some (Some c) => flag c
  | _ => false
  end.

(** The call of [getModulesPluginNames] in the preset, with the flags as the
    preset computes them.  [exportNamespaceFromRequired] is the answer of
    [isRequired("transform-export-namespace-from", ...)]. *)
Definition presetModulesPluginNames
    (modules : option string) (transformations : gmap string string)
    (apiCaller : option (option CallerMetadata))
    (exportNamespaceFromRequired : bool) : list string * list string :=
  let isAuto := bool_decide (modules = Some "auto") in
  let shouldSkipExportNamespaceFrom :=
    (isAuto && callerSupports apiCaller supportsExportNamespaceFrom)
    || (bool_decide (modules = None) && negb exportNamespaceFromRequired) in
  getModulesPluginNames modules transformations
    (negb isAuto || negb (callerSupports apiCaller supportsStaticESM))
    (negb isAuto || negb (callerSupports apiCaller supportsDynamicImport))
    (negb shouldSkipExportNamespaceFrom)
    (match apiCaller with
     | None => true
     | Some _ => callerSupports apiCaller supportsTopLevelAwait
     end).

(** Modelled from the spec: the table of module transformations, one
    module-transform plugin per output module format. *)
Definition moduleTransformations : gmap string string :=
  list_to_map [("auto", "transform-modules-commonjs");
               ("amd", "transform-modules-amd");
               ("commonjs", "transform-modules-commonjs");
               ("cjs", "transform-modules-commonjs");
               ("systemjs", "transform-modules-systemjs");
               ("umd", "transform-modules-umd")].

(** ** Plugin selection *)

(** A target set, and an entry of the compatibility data: platform to
    minimum version. *)
Abbreviation Targets := (gmap string Semver.SemVer).









(** Compatibility data in which a full transform subsumes a narrower
    bugfix plugin, and two target sets that differ in one version. *)
Definition v (major : N) : Semver.SemVer := Semver.mkSemVer major 0 0.

End PresetEnv.

(* ===================================================================== *)
(** * Code generator: indentation, comments and sequences                *)
(* ===================================================================== *)

Module PrinterLayout.
Import Printer.

Section Methods.
Context {Buf : Type} `{!Buffer Buf}.
Implicit Type p : Printer Buf.

(** Decrement indent size. *)
Definition dedent p : Printer Buf :=
  if compact (format p) || concise (format p) then p
  else set_indent (_indent p - 1) p.

End Methods.

(** ** Comments *)

(** [HAS_NEWLINE = /[\n\r\u2028\u2029]/]: among the 8-bit code units of
    a string, the line feed and the carriage return. *)
Fixpoint HAS_NEWLINE (str : string) : bool :=
  match str with
  | "" => false
  | String c rest =>
      Ascii.eqb c "010" || Ascii.eqb c "013" || HAS_NEWLINE rest
  end.

(** [HAS_BlOCK_COMMENT_END = /\*\//] *)
Fixpoint HAS_BlOCK_COMMENT_END (str : string) : bool :=
  match str with
  | "" => false
  | String c rest => hasPrefix "*/" str || HAS_BlOCK_COMMENT_END rest
  end.

Inductive PRINT_COMMENT_HINT := SKIP | ALLOW | DEFER.

(** A comment object; [ref] is its identity, by which the set of printed
    comments knows it. *)
Record Comment := mkComment {
  ref : nat;
  isBlockComment : bool;
  value : string;
  ignore : bool
}.

Record Loc := mkLoc { start_line : Z; end_line : Z }.

Record Node := mkNode {
  type : string;
  loc : option Loc
}.

(** The printer together with the fields that comment and sequence printing
    use. *)
Record PrinterState (Buf : Type) := mkState {
  printer : Printer Buf;
  _printStack : list Node;
  _printedComments : gset nat;
  _lastCommentLine : Z
}.
Arguments mkState {Buf}.
Arguments printer {Buf}.
Arguments _printStack {Buf}.
Arguments _printedComments {Buf}.
Arguments _lastCommentLine {Buf}.

Inductive Error :=
| TypeError (msg : string)
| ReferenceError (msg : string).

Section Sequences.
Context {Buf : Type} `{!Buffer Buf}.
Implicit Type s : PrinterState Buf.

Definition on_printer (f : Printer Buf → Printer Buf) s : PrinterState Buf :=
  mkState (f (printer s)) (_printStack s) (_printedComments s)
    (_lastCommentLine s).
Definition set_printedComments (c : gset nat) s : PrinterState Buf :=
  mkState (printer s) (_printStack s) c (_lastCommentLine s).

(** [format.shouldPrintComment] *)
Variable shouldPrintComment : string → bool.

Definition _shouldPrintComment (comment : Comment) s
    : PRINT_COMMENT_HINT * PrinterState Buf :=
  if ignore comment then (SKIP, s)
  else if bool_decide (ref comment ∈ _printedComments s) then (SKIP, s)
  else if _noLineTerminator (printer s)
          && (HAS_NEWLINE (value comment)
              || HAS_BlOCK_COMMENT_END (value comment))
  then (DEFER, s)
  else
    let s1 := set_printedComments ({[ref comment]} ∪ _printedComments s) s in
    if negb (shouldPrintComment (value comment)) then (SKIP, s1)
    else (ALLOW, s1).

(** [this._buf.getCurrentLine()] *)
Variable getCurrentLine : Buf → Z.
Variable printInnerComments : Printer Buf → Printer Buf.
Variable _printComment : string → Printer Buf → Printer Buf.

Definition nested : Printer Buf → Printer Buf :=
  tokenOpenParen printInnerComments _printComment.

Definition _printNewline (newLine : bool) (nextNodeStartLine : Z) s
    : PrinterState Buf :=
  let format := format (printer s) in
  if retainLines format || compact format then s
  else if concise format then on_printer (space nested false) s
  else if negb newLine then s
  else
    let startLine := nextNodeStartLine in
    let lastCommentLine := _lastCommentLine s in
    let offset := (startLine - lastCommentLine)%Z in
    if (0 <? startLine)%Z && (0 <? lastCommentLine)%Z && (0 <=? offset)%Z
    then on_printer (newline nested (if (offset =? 0)%Z then 1 else offset)
                       false) s
    else if hasContent (_buf (printer s))
    then on_printer (newline nested 1 false) s
    else s.

(** A step that may throw. *)
Definition Result : Type := Error + PrinterState Buf.

Definition andThen (r : Result) (k : PrinterState Buf → Result) : Result :=
  match r with
  | inl e => inl e
  | inr s => k s
  end.

Record PrintJoinOptions := mkOptions {
  opt_indent : option bool;
  statement : bool;
  separator : option (PrinterState Buf → Result);
  iterator : option (Node → nat → PrinterState Buf → Result);
  trailingCommentsLineOffset : option Z
}.

(** What a step taken outside the terminatorless latch leaves alone: the
    format, the indentation level and the absence of a latch. *)
Definition steady (f : Format) (k : Z) (p : Printer Buf) : Prop :=
  format p = f ∧ _indent p = k ∧ _parenPushNewlineState p = None.

Definition keeps (step : PrinterState Buf → Result) : Prop :=
  ∀ f k s s', step s = inr s' →
    steady f k (printer s) → steady f k (printer s').

(** The default separator of [printList]. *)
Definition commaSeparator s : Result :=
  inr (on_printer
         (λ p, space nested false
                 (token printInnerComments _printComment nested "," false p))
         s).

(** [this.print(node, parent, undefined, trailingCommentsLineOffset)] *)
Variable print : Node → Z → PrinterState Buf → Result.

Definition call (f : option (PrinterState Buf → Result)) s : Result :=
  match f with
  | Some f => f s
  | None => inr s
  end.

(** The loop of [printJoin], at index [i], over the elements from [i] on.
    [i + 1 === len] holds exactly when no element follows, and
    [i < len - 1] when one does. *)
Fixpoint printJoin_from (opts : PrintJoinOptions) (i : nat)
    (nextNodeStartLine : Z) (nodes : list (option Node)) s : Result :=
  match nodes with
  | [] => inr s
  | None :: rest => printJoin_from opts (S i) nextNodeStartLine rest s
  | Some node :: rest =>
      let s1 :=
        if statement opts
        then _printNewline (i =? 0)%nat nextNodeStartLine s else s in
      andThen (print node (default 0%Z (trailingCommentsLineOffset opts)) s1)
        (λ s2,
      andThen (call ((λ it, it node i) <$> iterator opts) s2) (λ s3,
      andThen (match rest with
               | [] => inr s3
               | _ :: _ => call (separator opts) s3
               end) (λ s4,
      if statement opts then
        match rest with
        | [] => inr (on_printer (newline nested 1 false) s4)
        | None :: _ =>
            inl (TypeError "Cannot read properties of null (reading 'loc')")
        | Some nextNode :: _ =>
            let line := default 0%Z (start_line <$> loc nextNode) in
            printJoin_from opts (S i) line rest (_printNewline true line s4)
        end
      else printJoin_from opts (S i) nextNodeStartLine rest s4)))
  end.

Definition printJoin (nodes : option (list (option Node)))
    (opts : PrintJoinOptions) s : Result :=
  match nodes with
  | None | Some [] => inr s
  | Some ((first :: _) as nodes) =>
      let indentOption : Error + bool :=
        match opt_indent opts with
        | Some b => inr b
        | None =>
            if retainLines (format (printer s)) then
              match first with
              | None =>
                  inl (TypeError
                         "Cannot read properties of null (reading 'loc')")
              | Some node =>
                  match start_line <$> loc node with
                  | Some startLine =>
                      inr (negb (startLine
                                 =? getCurrentLine (_buf (printer s)))%Z)
                  | None => inr false
                  end
              end
            else inr false
        end in
      match indentOption with
      | inl e => inl e
      | inr doIndent =>
          let s1 := if doIndent then on_printer indent s else s in
          andThen (printJoin_from opts 0 0 nodes s1) (λ s2,
            inr (if doIndent then on_printer dedent s2 else s2))
      end
  end.

Definition printSequence (nodes : option (list (option Node)))
    (opts : PrintJoinOptions) s : Result :=
  printJoin nodes
    (mkOptions (Some (default false (opt_indent opts))) true
       (separator opts) (iterator opts) (trailingCommentsLineOffset opts)) s.

Definition printList (items : option (list (option Node)))
    (opts : PrintJoinOptions) s : Result :=
  printJoin items
    (mkOptions (opt_indent opts) (statement opts)
       (Some (default commaSeparator (separator opts))) (iterator opts)
       (trailingCommentsLineOffset opts)) s.

End Sequences.

(** ** Running the sequence printer

    The plain buffer, no inner or auxiliary comments, every line the first
    one; a node is printed as the word of its type. *)
Definition plainState (fmt : Format) : PrinterState (list Z) :=
  mkState (plainPrinter fmt []) [] ∅ 0.
Definition retainLinesFormat : Format := mkFormat true false false "" "".
Definition run_print (node : Node) (offset : Z) (s : PrinterState (list Z))
    : @Result (list Z) :=
  inr (on_printer (run_word (type node)) s).
Definition run_printJoin :=
  printJoin (λ _ : list Z, 1%Z) (λ q, q) (λ _ q, q) run_print.
Definition run_commaSeparator : PrinterState (list Z) → @Result (list Z) :=
  commaSeparator (λ q, q) (λ _ q, q).
(** A comment printer that appends the comment's text. *)
Definition appendComment (comment : string) (p : Printer (list Z))
    : Printer (list Z) :=
  set_buf (append comment true (_buf p)) p.

End PrinterLayout.

(* ===================================================================== *)
(** * Properties of the semver model                                     *)
(* ===================================================================== *)

Module SemverFacts.
Import Semver.

Lemma split_on_nonempty sep s : split_on sep s ≠ [].
Proof.
  destruct s as [|c s']; cbn; [done|].
  destruct (split_on sep s'); [done|]. by destruct (Ascii.eqb c sep).
Qed.

Lemma split_on_space_nospace s : nospace s = true → split_on " " s = [s].
Proof.
  induction s as [|c s IH]; cbn; [done|].
  intros [Hc Hs]%andb_true_iff. rewrite (IH Hs).
  apply negb_true_iff in Hc. by rewrite Hc.
Qed.

Lemma digits_value_nospace acc s n :
  digits_value acc s = Some n → nospace s = true.
Proof.
  revert acc. induction s as [|c s IH]; intros acc; cbn; [done|].
  destruct (is_digit c) eqn:Hd; [|done]. intros H.
  rewrite (IH _ H), andb_true_r.
  apply negb_true_iff. destruct (Ascii.eqb_spec c " ") as [->|]; [done|done].
Qed.

Lemma numeric_identifier_nospace s n :
  numeric_identifier s = Some n → nospace s = true.
Proof.
  unfold numeric_identifier. destruct s as [|c s]; [done|].
  destruct (Ascii.eqb_spec c "0") as [->|Hc].
  - destruct s; [done|done].
  - intros H.
    assert (digits_value 0 (String c s) = Some n) as Hd.
    { revert H. by destruct c as [[] [] [] [] [] [] [] []]. }
    by eapply digits_value_nospace.
Qed.

Lemma pieces_nospace s :
  forallb nospace (split_on "." s) = true → nospace s = true.
Proof.
  induction s as [|c s IH]; cbn; [done|].
  destruct (split_on "." s) as [|piece rest] eqn:Hs.
  { by destruct (split_on_nonempty "." s). }
  destruct (Ascii.eqb_spec c ".") as [->|Hc]; cbn.
  - intros H. by apply IH.
  - intros [[Hc' Hp]%andb_true_iff Hr]%andb_true_iff.
    rewrite Hc'. cbn. apply IH. cbn. by rewrite Hp, Hr.
Qed.

Lemma parse_nospace s v : parse s = Some v → nospace s = true.
Proof.
  unfold parse. intros H. apply pieces_nospace.
  destruct (split_on "." s) as [|a [|b [|c [|? ?]]]]; try done.
  destruct (numeric_identifier a) eqn:Ha; [|done].
  destruct (numeric_identifier b) eqn:Hb; [|done].
  destruct (numeric_identifier c) eqn:Hc; [|done].
  cbn. by rewrite (numeric_identifier_nospace _ _ Ha),
    (numeric_identifier_nospace _ _ Hb), (numeric_identifier_nospace _ _ Hc).
Qed.

(** A version string starts with a digit. *)
Lemma parse_first_digit s v :
  parse s = Some v → ∃ c s', s = String c s' ∧ is_digit c = true.
Proof.
  unfold parse. destruct s as [|c s]; [done|]. intros H.
  exists c, s. split; [done|].
  cbn in H. destruct (split_on "." s) as [|piece rest] eqn:Hs.
  { by destruct (split_on_nonempty "." s). }
  destruct (Ascii.eqb_spec c ".") as [->|Hc].
  - destruct rest as [|b [|? ?]]; try done.
  - destruct rest as [|b [|c' [|? ?]]]; try done.
    destruct (numeric_identifier (String c piece)) eqn:Hn; [|done].
    unfold numeric_identifier in Hn.
    destruct (Ascii.eqb_spec c "0") as [->|Hc0]; [done|].
    assert (digits_value 0 (String c piece) = Some n) as Hd.
    { revert Hn. clear -Hc0. by destruct c as [[] [] [] [] [] [] [] []]. }
    cbn in Hd. by destruct (is_digit c).
Qed.

Lemma digit_not_equals c : is_digit c = true → Ascii.eqb "=" c = false.
Proof.
  intros H. destruct (Ascii.eqb_spec "=" c) as [<-|]; [done|done].
Qed.

Lemma parse_primitive_lt s m :
  parse s = Some m →
  parse_primitive (String "<" s) = Some [mkComparator OpLt m].
Proof.
  intros H. destruct (parse_first_digit _ _ H) as (c & s' & -> & Hd).
  unfold parse_primitive. cbn [stripPrefix].
  change (Ascii.eqb "^" "<") with false.
  change (Ascii.eqb "<" "<") with true.
  change (Ascii.eqb ">" "<") with false.
  rewrite (digit_not_equals _ Hd). cbv iota.
  unfold comparator_of. by rewrite H.
Qed.

Lemma parse_primitive_caret s v :
  parse s = Some v → parse_primitive (String "^" s) = Some (caret v).
Proof.
  intros H. unfold parse_primitive. cbn [stripPrefix].
  change (Ascii.eqb "^" "^") with true. cbv iota. by rewrite H.
Qed.

Lemma parse_range_lt s m :
  parse s = Some m → parse_range ("<" ++ s) = Some [mkComparator OpLt m].
Proof.
  intros H. change ("<" ++ s) with (String "<" s). unfold parse_range.
  rewrite split_on_space_nospace
    by (change (nospace (String "<" s)) with (nospace s);
        by apply parse_nospace with m).
  cbn [mapM]. rewrite (parse_primitive_lt _ _ H). done.
Qed.

Lemma parse_range_caret s v :
  parse s = Some v → parse_range ("^" ++ s) = Some (caret v).
Proof.
  intros H. change ("^" ++ s) with (String "^" s). unfold parse_range.
  rewrite split_on_space_nospace
    by (change (nospace (String "^" s)) with (nospace s);
        by apply parse_nospace with v).
  cbn [mapM]. rewrite (parse_primitive_caret _ _ H). done.
Qed.

Lemma compare_refl v : compare v v = Eq.
Proof. unfold compare. by rewrite !N.compare_refl. Qed.

Lemma caret_unfold v :
  caret v = [mkComparator OpGe v; mkComparator OpLt (caret_upper v)].
Proof. reflexivity. Qed.

Lemma caret_upper_gt v : gt (caret_upper v) v = true.
Proof.
  destruct v as [M m p]. unfold gt, compare, caret_upper. cbn [major minor patch].
  destruct (N.ltb_spec 0 M); cbn [major minor patch].
  - by destruct (N.compare_spec (M + 1) M); try lia.
  - assert (M = 0%N) as -> by lia.
    destruct (N.ltb_spec 0 m); cbn [major minor patch].
    + rewrite N.compare_refl. by destruct (N.compare_spec (m + 1) m); try lia.
    + assert (m = 0%N) as -> by lia. rewrite !N.compare_refl.
      by destruct (N.compare_spec (p + 1) p); try lia.
Qed.

Lemma caret_upper_lt8 v :
  lt (mkSemVer 8 0 0) (caret_upper v) = (8 <=? major v)%N.
Proof.
  destruct v as [M m p]. unfold lt, compare, caret_upper. cbn [major minor patch].
  destruct (N.ltb_spec 0 M); cbn [major minor patch].
  - destruct (N.compare_spec 8 (M + 1)), (N.leb_spec 8 M); try done; try lia.
  - assert (M = 0%N) as -> by lia.
    by destruct (N.ltb_spec 0 m).
Qed.

Lemma isSatisfiable_caret v : isSatisfiable (caret v) = true.
Proof.
  rewrite caret_unfold. unfold isSatisfiable. cbn [rev app isSatisfiable_rev forallb].
  unfold comparator_intersects. cbn [operator semver increasing decreasing inclusive].
  rewrite caret_upper_gt. by rewrite !orb_true_r.
Qed.

Lemma range_intersects_lt_caret m v :
  range_intersects [mkComparator OpLt m] (caret v) = gt m v.
Proof.
  unfold range_intersects. rewrite isSatisfiable_caret.
  rewrite caret_unfold. cbn [isSatisfiable rev app isSatisfiable_rev forallb].
  unfold comparator_intersects. cbn [operator semver increasing decreasing inclusive].
  cbn [andb orb]. by rewrite !andb_true_r, ?andb_false_r, ?orb_false_r, ?orb_true_r.
Qed.

Lemma range_intersects_ge8_caret v :
  range_intersects [mkComparator OpGe (mkSemVer 8 0 0)] (caret v)
  = (8 <=? major v)%N.
Proof.
  unfold range_intersects. rewrite isSatisfiable_caret.
  rewrite caret_unfold. cbn [isSatisfiable rev app isSatisfiable_rev forallb].
  unfold comparator_intersects. cbn [operator semver increasing decreasing inclusive].
  cbn [andb orb]. rewrite caret_upper_lt8.
  rewrite ?andb_true_r, ?andb_false_r, ?orb_false_r, ?orb_true_r. done.
Qed.

Lemma valid_parse s v : parse s = Some v → valid s = true.
Proof. intros H. unfold valid. apply bool_decide_eq_true. by exists v. Qed.

Lemma intersects_lt_caret minVersion rv m v :
  parse minVersion = Some m → parse rv = Some v →
  intersects ("<" ++ minVersion) ("^" ++ rv) = Some (gt m v).
Proof.
  intros Hm Hv. unfold intersects.
  rewrite (parse_range_lt _ _ Hm), (parse_range_caret _ _ Hv). cbn [mbind option_bind].
  by rewrite range_intersects_lt_caret.
Qed.

Lemma intersects_ge8_caret rv v :
  parse rv = Some v →
  intersects ">=8.0.0" ("^" ++ rv) = Some (8 <=? major v)%N.
Proof.
  intros Hv. unfold intersects.
  rewrite (parse_range_caret _ _ Hv).
  change (parse_range ">=8.0.0") with (Some [mkComparator OpGe (mkSemVer 8 0 0)]).
  cbn [mbind option_bind].
  by rewrite range_intersects_ge8_caret.
Qed.
End SemverFacts.

(* ===================================================================== *)
(** * Properties of hasMinVersion                                        *)
(* ===================================================================== *)

Module RuntimeHelpersFacts.
Import RuntimeHelpers.

Section Generic.
Variable valid : string → bool.
Variable intersects : string → string → option bool.

Lemma hasMinVersion_absent minVersion rv :
  truthy rv = false →
  hasMinVersion valid intersects minVersion rv = Some true.
Proof. intros H. unfold hasMinVersion. by rewrite H. Qed.

Lemma hasMinVersion_present minVersion rv b1 b2 :
  truthy (Some rv) = true →
  intersects ("<" ++ minVersion) (normalize valid rv) = Some b1 →
  intersects ">=8.0.0" (normalize valid rv) = Some b2 →
  hasMinVersion valid intersects minVersion (Some rv)
  = Some (negb b1 && negb b2).
Proof.
  intros Ht H1 H2. unfold hasMinVersion.
  rewrite Ht. cbn [negb]. change (default "" (Some rv)) with rv.
  rewrite H1. cbn.
  destruct b1; cbn; [done|]. by rewrite H2.
Qed.

Lemma normalize_valid rv :
  valid rv = true → normalize valid rv = "^" ++ rv.
Proof. intros H. unfold normalize. by rewrite H. Qed.

Lemma normalize_other rv :
  valid rv = false → normalize valid rv = rv.
Proof. intros H. unfold normalize. by rewrite H. Qed.
End Generic.

(** Release versions against the semver model: the answer is true exactly
    when the runtime version is not below [minVersion] and its major
    version is below 8. *)
Lemma hasMinVersion_release minVersion rv m v :
  Semver.parse minVersion = Some m → Semver.parse rv = Some v →
  hasMinVersion_semver minVersion (Some rv)
  = Some (negb (Semver.gt m v) && (Semver.major v <? 8)%N).
Proof.
  intros Hm Hv. unfold hasMinVersion_semver.
  rewrite N.ltb_antisym.
  apply hasMinVersion_present.
  - destruct (SemverFacts.parse_first_digit _ _ Hv) as (c & s' & -> & _). done.
  - rewrite normalize_valid by by apply SemverFacts.valid_parse with v.
    by apply SemverFacts.intersects_lt_caret.
  - rewrite normalize_valid by by apply SemverFacts.valid_parse with v.
    by apply SemverFacts.intersects_ge8_caret.
Qed.

(** C1.  [hasMinVersion] answers true when the runtime version is absent
    (undefined, or falsy as the guard [!runtimeVersion] reads it).
    Otherwise a version accepted by [semver.valid] is first turned into
    the caret range [^v], and the answer is true exactly when that range
    intersects neither [<minVersion] nor [>=8.0.0].  Against the semver
    model: ("7.5.0","7.4.0") is false, ("7.5.0","7.5.0") is true,
    ("7.5.0","8.0.0") is false and ("7.5.0",undefined) is true; and for
    release versions [m] and [v] in general, the answer is true exactly
    when [v] is not below [m] and the major version of [v] is below 8. *)
Theorem hasMinVersion_spec
    (valid : string → bool) (intersects : string → string → option bool)
    (minVersion : string) :
  hasMinVersion valid intersects minVersion None = Some true
  ∧ hasMinVersion valid intersects minVersion (Some "") = Some true
  ∧ (∀ rv b1 b2,
       truthy (Some rv) = true →
       intersects ("<" ++ minVersion)
                  (if valid rv then "^" ++ rv else rv) = Some b1 →
       intersects ">=8.0.0" (if valid rv then "^" ++ rv else rv) = Some b2 →
       hasMinVersion valid intersects minVersion (Some rv) = Some true
       ↔ b1 = false ∧ b2 = false)
  ∧ (∀ rv b1 b2,
       truthy (Some rv) = true →
       intersects ("<" ++ minVersion)
                  (if valid rv then "^" ++ rv else rv) = Some b1 →
       intersects ">=8.0.0" (if valid rv then "^" ++ rv else rv) = Some b2 →
       hasMinVersion valid intersects minVersion (Some rv)
       = Some (negb b1 && negb b2))
  ∧ hasMinVersion_semver "7.5.0" (Some "7.4.0") = Some false
  ∧ hasMinVersion_semver "7.5.0" (Some "7.5.0") = Some true
  ∧ hasMinVersion_semver "7.5.0" (Some "8.0.0") = Some false
  ∧ hasMinVersion_semver "7.5.0" None = Some true
  ∧ (∀ rv m v,
       Semver.parse minVersion = Some m → Semver.parse rv = Some v →
       hasMinVersion_semver minVersion (Some rv)
       = Some (negb (Semver.gt m v) && (Semver.major v <? 8)%N)).
Proof.
  split; [done|]. split; [done|]. split; [|split].
  - intros rv b1 b2 Ht H1 H2.
    rewrite (hasMinVersion_present valid intersects minVersion rv b1 b2 Ht H1 H2).
    destruct b1, b2; cbn; split; intros H; try done; by destruct H.
  - intros rv b1 b2 Ht H1 H2.
    by apply hasMinVersion_present.
  - do 4 (split; [vm_compute; reflexivity|]).
    intros rv m v Hm Hv. by apply hasMinVersion_release.
Qed.

Lemma hasMinVersion_spec_witness :
  hasMinVersion Semver.valid Semver.intersects "7.5.0" (Some "7.6.1")
  = Some (negb false && negb false).
Proof.
  apply (proj1 (proj2 (proj2 (proj2
           (hasMinVersion_spec Semver.valid Semver.intersects "7.5.0"))))).
  - reflexivity.
  - vm_compute; reflexivity.
  - vm_compute; reflexivity.
Defined.

End RuntimeHelpersFacts.

(* ===================================================================== *)
(** * Properties of path removal                                         *)
(* ===================================================================== *)

Module RemovalFacts.
Import Removal.

Lemma land_lor_flag (f s r : Z) : Z.land (Z.lor f (Z.lor s r)) r = r.
Proof.
  apply Z.bits_inj'. intros i _.
  rewrite Z.land_spec, !Z.lor_spec.
  destruct (Z.testbit r i); [by rewrite !orb_true_r | by rewrite andb_false_r].
Qed.

Lemma this_set_this p pa w : this p (set_this p pa w) = pa.
Proof. unfold this, set_this. cbn. by rewrite lookup_total_insert_eq. Qed.


Section WithFlags.
Variables REMOVED SHOULD_SKIP : Z.
Variable hooks : list (nat → World → bool * World).
Hypothesis REMOVED_nonzero : REMOVED ≠ 0%Z.

Lemma removed_after_mark pa :
  removed REMOVED
    (with_node None
       (with_flags (Z.lor (_traverseFlags pa) (Z.lor SHOULD_SKIP REMOVED)) pa))
  = true.
Proof.
  unfold removed. cbn. rewrite land_lor_flag.
  by apply negb_true_iff, Z.eqb_neq.
Qed.

(** A successful [_markRemoved] leaves the REMOVED bit set. *)
Lemma _markRemoved_sets_removed p w w' :
  _markRemoved REMOVED SHOULD_SKIP p w = (inr tt, w') →
  removed REMOVED (this p w') = true.
Proof.
  unfold _markRemoved. cbn.
  destruct (parent (this p w)) as [par|]; cbn.
  - destruct (pathCache w !! par) as [m|]; cbn; [|done].
    intros [= <-]. rewrite this_set_this. apply removed_after_mark.
  - intros [= <-]. rewrite this_set_this. apply removed_after_mark.
Qed.

Lemma remove_sets_removed p w w' :
  remove REMOVED SHOULD_SKIP hooks p w = (inr tt, w') →
  removed REMOVED (this p w') = true.
Proof.
  unfold remove, bind, _assertUnremoved, modify, _callRemovalHooks.
  destruct (removed REMOVED (this p w)); [done|]. cbn.
  set (w1 := resync REMOVED p w).
  destruct (noScope (this p w1)); cbn.
  - destruct (_callRemovalHooks_from hooks p w1) as [[] w2].
    + apply _markRemoved_sets_removed.
    + destruct (_remove p (shareCommentsWithSiblings p w2)) as [[e|[]] w3]; [done|].
      apply _markRemoved_sets_removed.
  - set (w1' := _removeFromScope p w1).
    destruct (_callRemovalHooks_from hooks p w1') as [[] w2].
    + apply _markRemoved_sets_removed.
    + destruct (_remove p (shareCommentsWithSiblings p w2)) as [[e|[]] w3]; [done|].
      apply _markRemoved_sets_removed.
Qed.

Lemma remove_removed p w :
  removed REMOVED (this p w) = true →
  remove REMOVED SHOULD_SKIP hooks p w
  = (inl (CodeFrameError "NodePath has been removed so is read-only."), w).
Proof.
  intros H. unfold remove, bind, _assertUnremoved. by rewrite H.
Qed.
End WithFlags.

(** C2.  Once [remove] has succeeded on a path, calling it again on that
    path throws the "has been removed" error from the initial assertion,
    and the store it leaves is the store it was given: the containers, the
    scope bindings and the path cache are all untouched. *)
Theorem remove_twice_rejected
    (REMOVED SHOULD_SKIP : Z) (hooks : list (nat → World → bool * World))
    (p : nat) (w w' : World) :
  REMOVED ≠ 0%Z →
  remove REMOVED SHOULD_SKIP hooks p w = (inr tt, w') →
  remove REMOVED SHOULD_SKIP hooks p w'
  = (inl (CodeFrameError "NodePath has been removed so is read-only."), w').
Proof.
  intros HR Hfirst. apply remove_removed.
  by eapply remove_sets_removed.
Qed.

Lemma remove_twice_rejected_witness :
  ∃ w', remove 1 4 [] 12 block_world = (inr tt, w')
        ∧ remove 1 4 [] 12 w'
          = (inl (CodeFrameError "NodePath has been removed so is read-only."), w').
Proof.
  eexists. split; [vm_compute; reflexivity|].
  apply (remove_twice_rejected 1 4 [] 12 block_world); [lia|].
  vm_compute; reflexivity.
Defined.

(** ** What the earlier protocol steps leave alone *)









(** ** Detaching the node *)





Section Detach.
Variables REMOVED SHOULD_SKIP : Z.
Variable hooks : list (nat → World → bool * World).
Hypothesis REMOVED_nonzero : REMOVED ≠ 0%Z.



Lemma splice1_in_range {A} (k : nat) (l : list A) :
  k < length l → splice1 (Z.of_nat k) l = delete k l.
Proof.
  intros H. unfold splice1, splice_start.
  destruct (Z.ltb_spec (Z.of_nat k) 0); [lia|].
  f_equal. lia.
Qed.




End Detach.




End RemovalFacts.

(* ===================================================================== *)
(** * Properties of the static-block transform                           *)
(* ===================================================================== *)

Module StaticBlockFacts.
Import StaticBlock.

Lemma pretty_N_go_nonempty (x : N) (s : string) :
  s ≠ "" → pretty_N_go x s ≠ "".
Proof.
  revert s. induction (N.lt_wf_0 x) as [x _ IH]. intros s Hs.
  destruct (decide (x = 0%N)) as [->|Hx].
  - by rewrite pretty_N_go_0.
  - rewrite pretty_N_go_step by lia.
    apply IH; [|done]. apply N.div_lt; lia.
Qed.

Lemma pretty_nat_nonempty (n : nat) : pretty n ≠ "".
Proof.
  unfold pretty, pretty_nat, pretty, pretty_N.
  case_decide; [done|].
  rewrite pretty_N_go_step by lia.
  by apply pretty_N_go_nonempty.
Qed.

(** Counters from one on give pairwise different candidates. *)
Lemma scope_generateUid_inj (name : string) (i j : nat) :
  (1 ≤ i)%nat → (1 ≤ j)%nat →
  scope_generateUid name i = scope_generateUid name j → i = j.
Proof.
  intros Hi Hj. unfold scope_generateUid. intros H.
  injection H as H. apply (inj (String.app name)) in H.
  repeat case_bool_decide.
  - by apply (inj pretty) in H.
  - by destruct (pretty_nat_nonempty i).
  - by destruct (pretty_nat_nonempty j).
  - lia.
Qed.

Section Visitor.
Variable _generateUid : string → nat → string.
Variable inheritsComments : Expression → Statement → Expression.
Hypothesis _generateUid_inj :
  ∀ i j, (1 ≤ i)%nat → (1 ≤ j)%nat → _generateUid "" i = _generateUid "" j → i = j.

Abbreviation generateUid_from := (generateUid_from _generateUid).
Abbreviation generateUid := (generateUid _generateUid).
Abbreviation replaceStaticBlocks :=
  (replaceStaticBlocks _generateUid inheritsComments).
Abbreviation withStaticProperties := (withStaticProperties inheritsComments).

(** Names that later candidates cannot produce do not influence the loop. *)
Lemma generateUid_from_irrelevant fuel i denyList x :
  (∀ k, (i ≤ k)%nat → _generateUid "" k ≠ x) →
  generateUid_from fuel i (denyList ∖ {[x]}) = generateUid_from fuel i denyList.
Proof.
  revert i. induction fuel as [|fuel IH]; intros i Hx; [done|]. cbn.
  rewrite (bool_decide_ext (_generateUid "" i ∈ denyList ∖ {[x]})
                           (_generateUid "" i ∈ denyList)).
  - destruct (bool_decide _); [|done]. apply IH. intros k Hk. apply Hx. lia.
  - pose proof (Hx i (le_n i)) as Hi.
    rewrite elem_of_difference, elem_of_singleton. tauto.
Qed.

(** With more fuel than denied names the loop returns, and what it returns
    is a candidate outside the deny list. *)
Lemma generateUid_from_fresh fuel i denyList :
  (1 ≤ i)%nat → (size denyList < fuel)%nat →
  ∃ uid, generateUid_from fuel i denyList = Some uid ∧ (uid ∉ denyList)
         ∧ (∃ k, (i ≤ k)%nat ∧ uid = _generateUid "" k).
Proof.
  revert i denyList. induction fuel as [|fuel IH]; intros i denyList Hi Hsz; [lia|].
  cbn. case_bool_decide as Hin.
  - rewrite <- (generateUid_from_irrelevant fuel (S i) denyList (_generateUid "" i)).
    2:{ intros k Hk Heq. apply _generateUid_inj in Heq; lia. }
    destruct (IH (S i) (denyList ∖ {[_generateUid "" i]})) as (uid & Hrun & Hfresh & k & Hk & ->).
    + lia.
    + rewrite size_difference by set_solver.
      rewrite size_singleton.
      assert (size denyList ≠ 0%nat) by (apply size_non_empty_iff; set_solver).
      lia.
    + exists (_generateUid "" k). split; [done|]. split.
      * intros Hk'. apply Hfresh. apply elem_of_difference. split; [done|].
        intros Heq. apply elem_of_singleton in Heq.
        apply _generateUid_inj in Heq; lia.
      * exists k. split; [lia|done].
  - exists (_generateUid "" i). split; [done|]. split; [done|]. by exists i.
Qed.

Lemma generateUid_fresh fuel denyList :
  (size denyList < fuel)%nat →
  ∃ uid, generateUid fuel denyList = Some uid ∧ uid ∉ denyList.
Proof.
  intros H. destruct (generateUid_from_fresh fuel 1 denyList) as (uid & ? & ? & _); eauto.
Qed.

Lemma replaceStaticBlocks_spec fuel body privateNames :
  (size privateNames + length (filter (λ m, isStaticBlock m = true) body)
   < fuel)%nat →
  ∃ uids,
    replaceStaticBlocks fuel privateNames body
    = Some (withStaticProperties uids body)
    ∧ length uids = length (filter (λ m, isStaticBlock m = true) body)
    ∧ NoDup uids
    ∧ Forall (λ u, u ∉ privateNames) uids.
Proof.
  revert privateNames.
  induction body as [|m body IH]; intros privateNames Hfuel.
  - exists []. repeat split; [constructor|constructor].
  - destruct m as [k v d s|k|blockBody|id|ak av ast].
    1,2,4,5: rewrite filter_cons_False in Hfuel |- * by (cbn; congruence);
           destruct (IH privateNames Hfuel) as (uids & Hrun & Hlen & Hnd & Hfr);
           exists uids; cbn; rewrite Hrun; done.
    rewrite filter_cons_True in Hfuel |- * by done. cbn in Hfuel.
    destruct (generateUid_fresh fuel privateNames) as (uid & Hgen & Hfresh); [lia|].
    destruct (IH ({[uid]} ∪ privateNames)) as (uids & Hrun & Hlen & Hnd & Hfr).
    { rewrite size_union by set_solver. rewrite size_singleton. lia. }
    exists (uid :: uids). cbn. rewrite Hgen. cbn. rewrite Hrun. cbn.
    split; [done|]. split; [by rewrite Hlen|]. split.
    + constructor; [|done]. intros Hin.
      rewrite Forall_forall in Hfr. specialize (Hfr _ Hin). set_solver.
    + constructor; [done|]. eapply Forall_impl; [exact Hfr|]. set_solver.
Qed.

Lemma collectPrivateNames_spec body name :
  name ∈ collectPrivateNames body
  ↔ ∃ m, m ∈ body ∧ privateName m = Some name.
Proof.
  unfold collectPrivateNames.
  assert (∀ acc : gset string,
            name ∈ foldl (λ privateNames m,
                            match privateName m with
                            | Some name => {[name]} ∪ privateNames
                            | None => privateNames
                            end) acc body
            ↔ name ∈ acc ∨ ∃ m, m ∈ body ∧ privateName m = Some name) as H.
  { induction body as [|m body IH]; intros acc; cbn.
    - split; [by left|]. intros [?|(m & Hm & _)]; [done|]. by apply elem_of_nil in Hm.
    - rewrite IH. split.
      + intros [Hacc|(m' & Hm' & Hn)].
        * destruct (privateName m) as [k|] eqn:Hk; [|by left].
          apply elem_of_union in Hacc as [Hs|?]; [|by left].
          apply elem_of_singleton in Hs as ->. right. exists m.
          split; [apply list_elem_of_here|done].
        * right. exists m'. split; [by apply list_elem_of_further|done].
      + intros [Hacc|(m' & Hm' & Hn)].
        * left. destruct (privateName m); [|done].
          apply elem_of_union. by right.
        * apply elem_of_cons in Hm' as [->|Hm'].
          -- left. rewrite Hn. apply elem_of_union. left.
             by apply elem_of_singleton.
          -- right. by exists m'. }
  rewrite H. split; [|by right]. intros [Hempty|?]; [|done].
  by apply not_elem_of_empty in Hempty.
Qed.

(** Position by position: a static block has become a static private
    property carrying one of the names, every other member is kept. *)
Lemma withStaticProperties_lookup uids body :
  length uids = length (filter (λ m, isStaticBlock m = true) body) →
  length (withStaticProperties uids body) = length body
  ∧ ∀ i m, body !! i = Some m →
      match m with
      | StaticBlock blockBody =>
          ∃ u, u ∈ uids
               ∧ withStaticProperties uids body !! i
                 = Some (ClassPrivateProperty u
                           (Some (replacement inheritsComments blockBody)) [] true)
      | _ => withStaticProperties uids body !! i = Some m
      end.
Proof.
  revert uids. induction body as [|m0 body IH]; intros uids Hlen.
  - split; [done|]. intros i m Hi. by rewrite lookup_nil in Hi.
  - destruct m0 as [k v d s|k|blockBody|id|ak av ast].
    1,2,4,5: rewrite filter_cons_False in Hlen by (cbn; congruence);
           destruct (IH uids Hlen) as [Hl Hpos];
           (split; [cbn; by rewrite Hl|]);
           intros [|i] m Hi; cbn in *;
             [injection Hi as <-; done | by apply Hpos].
    rewrite filter_cons_True in Hlen by done.
    destruct uids as [|u us]; [done|]. cbn in Hlen. injection Hlen as Hlen.
    destruct (IH us Hlen) as [Hl Hpos].
    split; [cbn; by rewrite Hl|].
    intros [|i] m Hi; cbn in *.
    + injection Hi as <-. exists u. split; [apply list_elem_of_here|done].
    + specialize (Hpos i m Hi). destruct m; try done.
      destruct Hpos as (u' & Hu' & Hlook). exists u'.
      split; [by apply list_elem_of_further|done].
Qed.

End Visitor.

(** What the visitor does achieve.  Given a generator whose candidates for
    counters 1, 2, ... are pairwise different, the visitor returns (the loop
    of [generateUid] needs no more rounds than there are denied names, plus
    one), and its result is the class body in which every static block has
    become a static private property and every other member is kept.  The
    generated names are pairwise different and none of them is the name of
    a member for which [isPrivate()] holds.  The initializer of a block holding exactly one expression
    statement is that expression as [inheritsComments] hands it back, with no
    wrapper; in every other case it is the call, without arguments, of an
    arrow function without parameters whose body is the block's statements. *)
Theorem ClassBody_static_blocks
    (_generateUid : string → nat → string)
    (inheritsComments : Expression → Statement → Expression)
    (body : list ClassMember) (fuel : nat) :
  (∀ i j, (1 ≤ i)%nat → (1 ≤ j)%nat →
          _generateUid "" i = _generateUid "" j → i = j) →
  (size (collectPrivateNames body)
   + length (filter (λ m, isStaticBlock m = true) body) < fuel)%nat →
  ∃ uids body',
    ClassBody _generateUid inheritsComments fuel body = Some body'
    ∧ body' = withStaticProperties inheritsComments uids body
    ∧ length body' = length body
    ∧ (∀ i m, body !! i = Some m →
         match m with
         | StaticBlock blockBody =>
             ∃ u, u ∈ uids
                  ∧ body' !! i
                    = Some (ClassPrivateProperty u
                              (Some (replacement inheritsComments blockBody))
                              [] true)
         | _ => body' !! i = Some m
         end)
    ∧ length uids = length (filter (λ m, isStaticBlock m = true) body)
    ∧ NoDup uids
    ∧ (∀ u m, u ∈ uids → m ∈ body → privateName m ≠ Some u)
    ∧ (∀ e, replacement inheritsComments [ExpressionStatement e]
            = inheritsComments e (ExpressionStatement e))
    ∧ (∀ blockBody, (∀ e, blockBody ≠ [ExpressionStatement e]) →
         replacement inheritsComments blockBody
         = CallExpression (ArrowFunctionExpression [] blockBody) []).
Proof.
  intros Hinj Hfuel.
  destruct (replaceStaticBlocks_spec _generateUid inheritsComments Hinj
              fuel body (collectPrivateNames body) Hfuel)
    as (uids & Hrun & Hlen & Hnd & Hfresh).
  destruct (withStaticProperties_lookup inheritsComments uids body Hlen)
    as [Hl Hpos].
  exists uids, (withStaticProperties inheritsComments uids body).
  split; [exact Hrun|]. split; [done|]. split; [done|]. split; [done|].
  split; [done|]. split; [done|]. split; [|split].
  - intros u m Hu Hm Hname.
    rewrite Forall_forall in Hfresh.
    assert (u ∈ collectPrivateNames body) as Hin
      by (apply collectPrivateNames_spec; by exists m).
    exact (Hfresh u Hu Hin).
  - done.
  - intros blockBody Hne. destruct blockBody as [|[e|id] [|? ?]]; try done.
    by destruct (Hne e).
Qed.

Lemma ClassBody_static_blocks_witness :
  ∃ uids,
    ClassBody scope_generateUid (λ e _, e) 5 example_body
    = Some (withStaticProperties (λ e _, e) uids example_body)
    ∧ NoDup uids.
Proof.
  destruct (ClassBody_static_blocks scope_generateUid (λ e _, e) example_body 5
              (scope_generateUid_inj "")
              ltac:(vm_compute; lia))
    as (uids & body' & Hrun & -> & _ & _ & _ & Hnd & _).
  exists uids. split; assumption.
Defined.

(** The example class body, run. *)
Example ClassBody_example :
  ClassBody scope_generateUid (λ e _, e) 5 example_body
  = Some [ClassPrivateProperty "_" None [] false;
          ClassPrivateProperty "_2" (Some (Expr 1)) [] true;
          Member 0;
          ClassPrivateProperty "_4"
            (Some (CallExpression
                     (ArrowFunctionExpression [] [Stmt 1; Stmt 2]) []))
            [] true;
          ClassPrivateMethod "_3"].
Proof. vm_compute. reflexivity. Qed.

(** C3.  The names the visitor avoids are those of the members for which
    [isPrivate()] holds, and an auto-accessor is not one of them, also when
    its key is a private name.  So whatever the generator: in a class body
    made of an auto-accessor keyed by the generator's first candidate and
    a static block, the block becomes a static private property of that
    very name, which the class body already declares.  With the scope's
    generator, [accessor #_ = e0; static { e1; }] becomes
    [accessor #_ = e0; static #_ = e1]. *)
Theorem ClassBody_accessor_collision
    (_generateUid : string → nat → string)
    (inheritsComments : Expression → Statement → Expression)
    (fuel : nat) (value : option Expression) (static : bool)
    (blockBody : list Statement) :
  let uid := _generateUid "" 1 in
  let body := [ClassAccessorProperty (PrivateName uid) value static;
               StaticBlock blockBody] in
  isPrivate (ClassAccessorProperty (PrivateName uid) value static) = false
  ∧ collectPrivateNames body = ∅
  ∧ uid ∈ declaredPrivateNames body
  ∧ ClassBody _generateUid inheritsComments (S fuel) body
    = Some [ClassAccessorProperty (PrivateName uid) value static;
            ClassPrivateProperty uid
              (Some (replacement inheritsComments blockBody)) [] true]
  ∧ ClassBody scope_generateUid (λ e _, e) 1
      [ClassAccessorProperty (PrivateName "_") (Some (Expr 0)) false;
       StaticBlock [ExpressionStatement (Expr 1)]]
    = Some [ClassAccessorProperty (PrivateName "_") (Some (Expr 0)) false;
            ClassPrivateProperty "_" (Some (Expr 1)) [] true].
Proof.
  cbv zeta. split; [done|]. split; [done|]. split.
  - unfold declaredPrivateNames. cbn. set_solver.
  - split; [|by vm_compute].
    unfold ClassBody. cbn [collectPrivateNames foldl privateName].
    cbn [replaceStaticBlocks generateUid generateUid_from].
    rewrite bool_decide_eq_false_2 by set_solver. done.
Qed.

End StaticBlockFacts.

(* ===================================================================== *)
(** * Properties of the union-type builder                               *)
(* ===================================================================== *)

Module FlowUnionFacts.
Import FlowUnion.

Lemma list_eqb_eq {A} (eqb : A → A → bool) (l1 : list A) :
  Forall (λ a, ∀ b, eqb a b = true ↔ a = b) l1 →
  ∀ l2, list_eqb eqb l1 l2 = true ↔ l1 = l2.
Proof.
  induction 1 as [|a l1 Ha _ IH]; intros [|b l2]; cbn; try done.
  rewrite andb_true_iff, Ha, IH. split.
  - by intros [-> ->].
  - by intros [= -> ->].
Qed.

Lemma FlowType_eqb_eq (a b : FlowType) : FlowType_eqb a b = true ↔ a = b.
Proof.
  revert b. induction a as [name ps IH|ts IH] using FlowType_ind;
    intros [name' ps'|ts']; cbn; try done.
  - rewrite andb_true_iff, String.eqb_eq, (list_eqb_eq _ _ IH). split.
    + by intros [-> ->].
    + by intros [= -> ->].
  - rewrite (list_eqb_eq _ _ IH). split; [by intros ->|by intros [= ->]].
Qed.

Lemma existsb_FlowType_eqb (node : FlowType) (types : list FlowType) :
  existsb (FlowType_eqb node) types = true ↔ node ∈ types.
Proof.
  rewrite existsb_exists. split.
  - intros (x & Hin & Heq). apply FlowType_eqb_eq in Heq as ->.
    by apply list_elem_of_In.
  - intros Hin. exists node. split; [by apply list_elem_of_In|].
    by apply FlowType_eqb_eq.
Qed.

Lemma pushUnique_spec (nodes types : list FlowType) :
  NoDup types →
  NoDup (pushUnique types nodes)
  ∧ ∀ x, x ∈ pushUnique types nodes ↔ x ∈ types ∨ x ∈ nodes.
Proof.
  revert types. induction nodes as [|node rest IH]; intros types Hnd; cbn.
  - split; [done|]. intros x. rewrite elem_of_nil. tauto.
  - destruct (existsb (FlowType_eqb node) types) eqn:Hex.
    + apply existsb_FlowType_eqb in Hex.
      destruct (IH types Hnd) as [Hnd' Hmem]. split; [done|].
      intros x. rewrite Hmem, elem_of_cons.
      split; [tauto|]. intros [?|[->|?]]; tauto.
    + assert (node ∉ types) as Hnotin.
      { intros Hin. apply existsb_FlowType_eqb in Hin. congruence. }
      destruct (IH (types ++ [node])%list) as [Hnd' Hmem].
      { apply NoDup_app. split; [done|]. split.
        - intros x Hx Hx'. apply list_elem_of_singleton in Hx' as ->. done.
        - apply NoDup_singleton. }
      split; [done|].
      intros x. rewrite Hmem, elem_of_app, list_elem_of_singleton, elem_of_cons.
      tauto.
Qed.

Lemma flatten_not_union (t : FlowType) :
  Forall (λ x, isUnionTypeAnnotation x = false) (flatten t).
Proof.
  induction t as [name ps _|ts IH] using FlowType_ind; cbn.
  - by repeat constructor.
  - induction IH as [|x xs Hx _ IHxs]; cbn; [constructor|].
    by apply Forall_app.
Qed.

Lemma flatten_leaf (t : FlowType) :
  isUnionTypeAnnotation t = false → flatten t = [t].
Proof. by destruct t. Qed.

Lemma removeTypeDuplicates_spec (types : list FlowType) :
  NoDup (removeTypeDuplicates types)
  ∧ (∀ t, t ∈ removeTypeDuplicates types
          ↔ ∃ u, u ∈ types ∧ t ∈ flatten u)
  ∧ Forall (λ x, isUnionTypeAnnotation x = false) (removeTypeDuplicates types).
Proof.
  unfold removeTypeDuplicates.
  destruct (pushUnique_spec (flat_map flatten types) [] (NoDup_nil_2))
    as [Hnd Hmem].
  assert (∀ t, t ∈ pushUnique [] (flat_map flatten types)
               ↔ ∃ u, u ∈ types ∧ t ∈ flatten u) as Hmem'.
  { intros t. rewrite Hmem, elem_of_nil, !list_elem_of_In, in_flat_map.
    split.
    - intros [[]|(u & Hu & Ht)]. exists u. by rewrite !list_elem_of_In.
    - intros (u & Hu & Ht). right. exists u. by rewrite <- !list_elem_of_In. }
  split; [done|]. split; [done|].
  apply Forall_forall. intros x Hx. apply Hmem' in Hx as (u & _ & Hx).
  pose proof (flatten_not_union u) as Hall.
  rewrite Forall_forall in Hall. by apply Hall.
Qed.

(** C4.  The builder removes duplicates: the flattened list has no
    repetition and holds exactly the members of the candidates.  When one
    member remains the builder returns that member itself, and otherwise a
    union node over the flattened list; it never returns a union of one
    member.  On [A; A; B] it returns the union of A and B, and on [A; A] it
    returns A. *)
Theorem createFlowUnionType_spec (types : list FlowType) :
  let flattened := removeTypeDuplicates types in
  NoDup flattened
  ∧ (∀ t, t ∈ flattened ↔ ∃ u, u ∈ types ∧ t ∈ flatten u)
  ∧ (∀ t, flattened = [t] →
          createFlowUnionType removeTypeDuplicates types = t)
  ∧ (length flattened ≠ 1%nat →
     createFlowUnionType removeTypeDuplicates types
     = UnionTypeAnnotation flattened)
  ∧ (∀ t, createFlowUnionType removeTypeDuplicates types
          ≠ UnionTypeAnnotation [t])
  ∧ (∀ A B, isUnionTypeAnnotation A = false →
            isUnionTypeAnnotation B = false → A ≠ B →
            createFlowUnionType removeTypeDuplicates [A; A; B]
            = UnionTypeAnnotation [A; B])
  ∧ (∀ A, isUnionTypeAnnotation A = false →
          createFlowUnionType removeTypeDuplicates [A; A] = A).
Proof.
  intros flattened.
  destruct (removeTypeDuplicates_spec types) as (Hnd & Hmem & Hleaf).
  fold flattened in Hnd, Hmem, Hleaf.
  split; [done|]. split; [done|]. split; [|split; [|split; [|split]]].
  - intros t Ht. unfold createFlowUnionType. fold flattened. by rewrite Ht.
  - intros Hlen. unfold createFlowUnionType. fold flattened.
    by destruct flattened as [|? [|? ?]].
  - intros t. unfold createFlowUnionType. fold flattened.
    destruct flattened as [|x [|y rest]] eqn:Hf; try done.
    intros ->. by apply Forall_inv in Hleaf.
  - intros A B HA HB Hne. unfold createFlowUnionType, removeTypeDuplicates.
    cbn. rewrite !(flatten_leaf _ HA), (flatten_leaf _ HB). cbn.
    rewrite (proj2 (FlowType_eqb_eq A A) eq_refl). cbn.
    destruct (FlowType_eqb B A) eqn:HBA; [|done].
    apply FlowType_eqb_eq in HBA. congruence.
  - intros A HA. unfold createFlowUnionType, removeTypeDuplicates.
    cbn. rewrite !(flatten_leaf _ HA). cbn.
    by rewrite (proj2 (FlowType_eqb_eq A A) eq_refl).
Qed.

Lemma createFlowUnionType_spec_witness :
  createFlowUnionType removeTypeDuplicates
    [NamedType "string" []; NamedType "string" [];
     UnionTypeAnnotation [NamedType "Array" [NamedType "number" []]]]
  = UnionTypeAnnotation
      [NamedType "string" []; NamedType "Array" [NamedType "number" []]].
Proof.
  apply (proj1 (proj2 (proj2 (proj2 (createFlowUnionType_spec
           [NamedType "string" []; NamedType "string" [];
            UnionTypeAnnotation [NamedType "Array" [NamedType "number" []]]]))))).
  vm_compute. lia.
Defined.

End FlowUnionFacts.

(* ===================================================================== *)
(** * Properties of validate                                             *)
(* ===================================================================== *)

Module ValidateFacts.
Import Validate.

Section Tables.
Variable NODE_FIELDS : gmap string (gmap string FieldOptions).
Variable NODE_PARENT_VALIDATIONS : gmap string Validator.

Abbreviation validate := (validate NODE_FIELDS NODE_PARENT_VALIDATIONS).
Abbreviation validateChild := (validateChild NODE_PARENT_VALIDATIONS).

Lemma andThen_skip_l (r : Run) : andThen skip r = r.
Proof. by destruct r. Qed.

Lemma validate_no_node key val : validate None key val = skip.
Proof. done. Qed.

Lemma validate_no_fields n key val :
  NODE_FIELDS !! type n = None → validate (Some n) key val = skip.
Proof. intros H. unfold validate, Validate.validate. by rewrite H. Qed.

Lemma validateChild_nullish node key val :
  isNullish val = true → validateChild node key val = skip.
Proof. intros H. unfold validateChild, Validate.validateChild. by rewrite H. Qed.

Lemma validateChild_registered node key child v :
  NODE_PARENT_VALIDATIONS !! type child = Some v →
  validateChild node key (VNode child) = invoke v node key (VNode child).
Proof.
  intros H. unfold validateChild, Validate.validateChild. cbn. by rewrite H.
Qed.

Lemma validateChild_unregistered node key val :
  valueType val ≫= (λ t, NODE_PARENT_VALIDATIONS !! t) = None →
  validateChild node key val = skip.
Proof.
  intros H. unfold validateChild, Validate.validateChild.
  rewrite H. by destruct (isNullish val).
Qed.

End Tables.

(** C6 (as amended).  [validate] does nothing when the node is absent or
    when no field table exists for the node's type.  With a field table:
    the field's validator is invoked on the value, first, exactly when the
    key has a schema that declares a validator and it is not the case that
    the field is optional and the value null or absent; a field that is
    optional with a null or absent value makes the whole call do nothing.
    After that, unless the field validator threw, the parent-context
    validator registered under the value's own type is invoked when the
    value is a node and such a validator exists, also when the key has no
    field schema at all. *)
Theorem validate_spec
    (NODE_FIELDS : gmap string (gmap string FieldOptions))
    (NODE_PARENT_VALIDATIONS : gmap string Validator)
    (key : string) (val : Value) :
  Validate.validate NODE_FIELDS NODE_PARENT_VALIDATIONS None key val = skip
  ∧ (∀ n, NODE_FIELDS !! type n = None →
          Validate.validate NODE_FIELDS NODE_PARENT_VALIDATIONS (Some n) key val
          = skip)
  ∧ (∀ n fields, NODE_FIELDS !! type n = Some fields →
       let child := Validate.validateChild NODE_PARENT_VALIDATIONS (Some n) key val in
       let run := Validate.validate NODE_FIELDS NODE_PARENT_VALIDATIONS
                    (Some n) key val in
       (fields !! key = None → run = child)
       ∧ (∀ f, fields !! key = Some f → validate_fn f = None → run = child)
       ∧ (∀ f, fields !! key = Some f → optional f = true →
               isNullish val = true → run = skip)
       ∧ (∀ f v, fields !! key = Some f → validate_fn f = Some v →
                 optional f && isNullish val = false →
                 run = andThen (invoke v (Some n) key val) child))
  ∧ (∀ node, isNullish val = true →
       Validate.validateChild NODE_PARENT_VALIDATIONS node key val = skip)
  ∧ (∀ node child v, val = VNode child →
       NODE_PARENT_VALIDATIONS !! type child = Some v →
       Validate.validateChild NODE_PARENT_VALIDATIONS node key val
       = invoke v node key val)
  ∧ (∀ node,
       valueType val ≫= (λ t, NODE_PARENT_VALIDATIONS !! t) = None →
       Validate.validateChild NODE_PARENT_VALIDATIONS node key val = skip).
Proof.
  split; [done|]. split; [intros n Hn; by apply validate_no_fields|].
  split; [|split; [|split]].
  - intros n fields Hf child run. subst run child.
    unfold Validate.validate. rewrite Hf. unfold validateField.
    split; [|split; [|split]].
    + intros ->. by rewrite andThen_skip_l.
    + intros f -> ->. by rewrite andThen_skip_l.
    + intros f -> Hopt Hnull.
      rewrite (validateChild_nullish _ _ _ _ Hnull).
      destruct (validate_fn f); [|done]. by rewrite Hopt, Hnull.
    + intros f v -> -> ->. done.
  - intros node Hn. by apply validateChild_nullish.
  - intros node child v -> Hv. by apply validateChild_registered.
  - intros node Hn. by apply validateChild_unregistered.
Qed.

Lemma validate_spec_witness :
  Validate.validate example_fields example_parent_validations
    (Some (mkNode "IfStatement" 0)) "test" (VNode (mkNode "Identifier" 1))
  = ([Invoke expectNode (Some (mkNode "IfStatement" 0)) "test"
        (VNode (mkNode "Identifier" 1));
      Invoke identifierPlacement (Some (mkNode "IfStatement" 0)) "test"
        (VNode (mkNode "Identifier" 1))], None).
Proof.
  pose proof (validate_spec example_fields example_parent_validations
                "test" (VNode (mkNode "Identifier" 1))) as (_ & _ & H & _ & Hc & _).
  specialize (H (mkNode "IfStatement" 0)
                {[ "test" := mkField (Some expectNode) false;
                   "alternate" := mkField (Some expectNode) true ]}
                eq_refl).
  cbv zeta in H. destruct H as (_ & _ & _ & H).
  rewrite (H (mkField (Some expectNode) false) expectNode eq_refl eq_refl eq_refl).
  rewrite (Hc (Some (mkNode "IfStatement" 0)) (mkNode "Identifier" 1)
              identifierPlacement eq_refl eq_refl).
  reflexivity.
Defined.

(** A key without field schema is not a no-op: the identifier placed under
    the unknown key `foo` of an `if` statement still has its parent-context
    validator invoked, which here throws. *)
Lemma validate_unknown_key_counterexample :
  example_fields !! "IfStatement" ≫= (λ fields, fields !! "foo") = None
  ∧ Validate.validate example_fields example_parent_validations
      (Some (mkNode "IfStatement" 0)) "foo" (VNode (mkNode "Identifier" 1))
    = ([Invoke identifierPlacement (Some (mkNode "IfStatement" 0)) "foo"
          (VNode (mkNode "Identifier" 1))], Some "misplaced identifier")
  ∧ Validate.validate example_fields example_parent_validations
      (Some (mkNode "IfStatement" 0)) "foo" (VNode (mkNode "Identifier" 1))
    ≠ skip.
Proof.
  split; [by vm_compute|]. split; [by vm_compute|].
  intros H. vm_compute in H. discriminate H.
Qed.

End ValidateFacts.

(* ===================================================================== *)
(** * Properties of the emission engine                                  *)
(* ===================================================================== *)

Module PrinterFacts.
Import Printer.

Lemma nat_of_ascii_inj (a b : ascii) : nat_of_ascii a = nat_of_ascii b → a = b.
Proof.
  intros H. rewrite <- (ascii_nat_embedding a), <- (ascii_nat_embedding b).
  by rewrite H.
Qed.

Lemma charCode_eqb (a b : ascii) :
  (Z.of_nat (nat_of_ascii a) =? Z.of_nat (nat_of_ascii b))%Z = Ascii.eqb a b.
Proof.
  destruct (Ascii.eqb_spec a b) as [->|Hne].
  - apply Z.eqb_refl.
  - apply Z.eqb_neq. intros H. apply Hne, nat_of_ascii_inj. lia.
Qed.

(** The test [str.charCodeAt(0) === code] reads the first character. *)
Lemma charCodeAt_first (c : ascii) (str : string) :
  (charCodeAt str 0 =? Z.of_nat (nat_of_ascii c))%Z = startsWith c str.
Proof.
  destruct str as [|c' rest]; unfold charCodeAt; cbn [String.get startsWith].
  - destruct (Z.eqb_spec (-1) (Z.of_nat (nat_of_ascii c))); [lia|done].
  - apply charCode_eqb.
Qed.

Lemma NON_DECIMAL_LITERAL_prefix (str : string) :
  NON_DECIMAL_LITERAL str
  = hasPrefix "0b" str || hasPrefix "0o" str || hasPrefix "0x" str.
Proof.
  destruct str as [|z [|c rest]]; cbn [NON_DECIMAL_LITERAL hasPrefix].
  - done.
  - by rewrite !andb_false_r.
  - rewrite !andb_true_r, (Ascii.eqb_sym "0" z), (Ascii.eqb_sym "b" c),
      (Ascii.eqb_sym "o" c), (Ascii.eqb_sym "x" c).
    by destruct (Ascii.eqb z "0").
Qed.

Section Methods.
Context {Buf : Type} `{!Buffer Buf}.
Implicit Type p : Printer Buf.
Variable printInnerComments : Printer Buf → Printer Buf.
Variable _printComment : string → Printer Buf → Printer Buf.
Variable Number_isInteger : string → bool.
Variable nested : Printer Buf → Printer Buf.

Abbreviation inner := (_maybePrintInnerComments printInnerComments).
Abbreviation aux := (_maybeAddAuxComment _printComment false).

Lemma word_space str nlt p :
  word printInnerComments _printComment nested str nlt p
  = set_noLineTerminator nlt
      (set_endsWithWord true
         (_append nested str false
            (aux (if wordNeedsSpace (_endsWithWord (inner p))
                       (getLastCharP (inner p)) str
                  then _space nested (inner p) else inner p)))).
Proof.
  unfold word, wordNeedsSpace, endsWith.
  by rewrite <- (charCodeAt_first "/" str).
Qed.

Lemma token_space str maybeNewline p :
  token printInnerComments _printComment nested str maybeNewline p
  = set_noLineTerminator false
      (_append nested str maybeNewline
         (aux (if tokenNeedsSpace (_endsWithInteger (inner p))
                    (getLastCharP (inner p)) str
               then _space nested (inner p) else inner p))).
Proof.
  unfold token, tokenNeedsSpace.
  rewrite <- (charCodeAt_first "=" str), <- (charCodeAt_first "+" str),
    <- (charCodeAt_first "-" str), <- (charCodeAt_first "." str).
  done.
Qed.

Lemma tokenChar_space char p :
  tokenChar printInnerComments _printComment nested char p
  = set_noLineTerminator false
      (_appendChar nested char
         (aux (if tokenCharNeedsSpace (_endsWithInteger (inner p))
                    (getLastCharP (inner p)) char
               then _space nested (inner p) else inner p))).
Proof. done. Qed.

Lemma number_endsWithInteger str p :
  _endsWithInteger
    (number printInnerComments _printComment Number_isInteger nested str p)
  = bareInteger Number_isInteger str.
Proof.
  unfold number, bareInteger. cbn. by rewrite NON_DECIMAL_LITERAL_prefix.
Qed.

(** The nested call made by the latch never reaches a nested call of its
    own: whatever stands for it, the result is the same. *)
Lemma token_open_paren_nested (k1 k2 : Printer Buf → Printer Buf) p :
  token printInnerComments _printComment k1 "(" false p
  = token printInnerComments _printComment k2 "(" false p.
Proof.
  unfold token. cbn [charCodeAt String.get].
  change (String.eqb "(" "--") with false.
  cbn [orb andb].
  replace (Z.of_nat (nat_of_ascii "(") =? charCodes.equalsTo)%Z with false by done.
  replace (Z.of_nat (nat_of_ascii "(") =? charCodes.plusSign)%Z with false by done.
  replace (Z.of_nat (nat_of_ascii "(") =? charCodes.dash)%Z with false by done.
  replace (Z.of_nat (nat_of_ascii "(") =? charCodes.dot)%Z with false by done.
  rewrite !andb_false_r. cbn [orb andb].
  reflexivity.
Qed.

Lemma _maybeIndent_lineFeed p : _maybeIndent charCodes.lineFeed p = p.
Proof.
  unfold _maybeIndent. cbn. by rewrite andb_false_r.
Qed.

Lemma _newline_no_latch p :
  _parenPushNewlineState p = None →
  _buf (_newline nested p) = queue charCodes.lineFeed (_buf p)
  ∧ _parenPushNewlineState (_newline nested p) = None.
Proof.
  intros H. unfold _newline, _queue, _maybeAddParenChar.
  rewrite H, _maybeIndent_lineFeed. done.
Qed.

Lemma _newlines_no_latch count p :
  _parenPushNewlineState p = None →
  _buf (_newlines nested count p)
  = Nat.iter count (queue charCodes.lineFeed) (_buf p).
Proof.
  revert p. induction count as [|count IH]; intros p H; [done|].
  destruct (_newline_no_latch p H) as [Hb Hl].
  cbn [_newlines]. rewrite (IH _ Hl), Hb.
  symmetry. apply Nat.iter_succ_r.
Qed.

End Methods.

(** The cases of each method.  With p1 the state once pending inner
    comments are out: [word] queues a space exactly when the previous token was a word or
    number, or the word starts with `/` and the last character is `/`;
    [token] exactly when the last character is `!` and the token is `--` or
    starts with `=`, or the token starts with `+` after `+`, with `-` after
    `-`, or with `.` after a bare integer; [tokenChar] exactly for `+` after
    `+`, `-` after `-` and `.` after a bare integer.  The word flag is set by
    [word] and [number] and cleared by [token] and [tokenChar]; the integer
    flag is set by [number] exactly for a literal that converts to an
    integer, has no `0b`, `0o` or `0x` prefix, no `e` or `E`, no trailing
    `.0...0` and no trailing dot, and is cleared by the other three.  Hence a
    word directly after a word gets a space, and a dot directly after a
    number gets one exactly when the number was such a bare integer. *)
Theorem adjacency_spaces {Buf : Type} `{!Buffer Buf}
    (printInnerComments : Printer Buf → Printer Buf)
    (_printComment : string → Printer Buf → Printer Buf)
    (Number_isInteger : string → bool)
    (nested : Printer Buf → Printer Buf) (p : Printer Buf) :
  let inner := _maybePrintInnerComments printInnerComments in
  let aux := _maybeAddAuxComment _printComment false in
  let word := word printInnerComments _printComment nested in
  let number := number printInnerComments _printComment Number_isInteger nested in
  let token := token printInnerComments _printComment nested in
  let tokenChar := tokenChar printInnerComments _printComment nested in
  (∀ str nlt,
     word str nlt p
     = set_noLineTerminator nlt
         (set_endsWithWord true
            (_append nested str false
               (aux (if wordNeedsSpace (_endsWithWord (inner p))
                          (getLastCharP (inner p)) str
                     then _space nested (inner p) else inner p)))))
  ∧ (∀ str maybeNewline,
       token str maybeNewline p
       = set_noLineTerminator false
           (_append nested str maybeNewline
              (aux (if tokenNeedsSpace (_endsWithInteger (inner p))
                         (getLastCharP (inner p)) str
                    then _space nested (inner p) else inner p))))
  ∧ (∀ char,
       tokenChar char p
       = set_noLineTerminator false
           (_appendChar nested char
              (aux (if tokenCharNeedsSpace (_endsWithInteger (inner p))
                         (getLastCharP (inner p)) char
                    then _space nested (inner p) else inner p))))
  ∧ (∀ str nlt, _endsWithWord (word str nlt p) = true
                ∧ _endsWithInteger (word str nlt p) = false)
  ∧ (∀ str, _endsWithWord (number str p) = true
            ∧ _endsWithInteger (number str p)
              = bareInteger Number_isInteger str)
  ∧ (∀ str maybeNewline,
       _endsWithWord (token str maybeNewline p) = false
       ∧ _endsWithInteger (token str maybeNewline p) = false)
  ∧ (∀ char, _endsWithWord (tokenChar char p) = false
             ∧ _endsWithInteger (tokenChar char p) = false)
  ∧ ((∀ q, _endsWithWord (printInnerComments q) = _endsWithWord q) →
     ∀ a b nlt,
       wordNeedsSpace (_endsWithWord (inner (word a nlt p)))
         (getLastCharP (inner (word a nlt p))) b = true)
  ∧ ((∀ q, _endsWithInteger (printInnerComments q) = _endsWithInteger q) →
     ∀ str,
       tokenCharNeedsSpace (_endsWithInteger (inner (number str p)))
         (getLastCharP (inner (number str p))) charCodes.dot
       = bareInteger Number_isInteger str).
Proof.
  intros inner aux word number token tokenChar.
  split; [intros; apply word_space|].
  split; [intros; apply token_space|].
  split; [intros; apply tokenChar_space|].
  split; [done|].
  split; [intros str; split; [done|apply number_endsWithInteger]|].
  split; [done|]. split; [done|]. split.
  - intros Hpic a b nlt. unfold wordNeedsSpace.
    replace (_endsWithWord (inner (word a nlt p))) with true; [done|].
    unfold inner, _maybePrintInnerComments.
    cbn [_endsWithWord set_innerComments].
    destruct (_endsWithInnerRaw _); [by rewrite Hpic|done].
  - intros Hpic str. unfold tokenCharNeedsSpace. cbn [Z.eqb charCodes.dot
      charCodes.plusSign charCodes.dash Pos.eqb andb orb].
    rewrite <- (number_endsWithInteger printInnerComments _printComment
                  Number_isInteger nested str p).
    unfold inner, _maybePrintInnerComments.
    cbn [_endsWithInteger set_innerComments].
    destruct (_endsWithInnerRaw _); [by rewrite Hpic|done].
Qed.

Lemma adjacency_spaces_witness :
  wordNeedsSpace
    (_endsWithWord
       (_maybePrintInnerComments (λ q, q)
          (run_word "typeof" (plainPrinter plainFormat []))))
    (getLastCharP
       (_maybePrintInnerComments (λ q, q)
          (run_word "typeof" (plainPrinter plainFormat []))))
    "x" = true.
Proof.
  exact (proj1 (proj2 (proj2 (proj2 (proj2 (proj2 (proj2 (proj2
           (adjacency_spaces (λ q, q) (λ _ q, q) (λ _, true) run_nested
              (plainPrinter plainFormat []))))))))) (λ _, eq_refl)
           "typeof" "x" false).
Defined.

(** The cases are not shared by all token-append operations.  After `!`,
    [token] separates a following `=` but [tokenChar] does not; and a `/`
    appended by [token] after a `/` is not separated, only one that starts a
    word is. *)
Lemma adjacency_counterexample :
  let bang := run_token "!" (plainPrinter plainFormat []) in
  let slash := run_token "/" (plainPrinter plainFormat []) in
  anyTokenNeedsSpace false (_endsWithWord bang) (_endsWithInteger bang)
    (getLastCharP bang) "=" = true
  ∧ _buf (run_tokenChar charCodes.equalsTo bang) = rev (charCodes_of "!=")
  ∧ _buf (run_token "=" bang) = rev (charCodes_of "! =")
  ∧ anyTokenNeedsSpace false (_endsWithWord slash) (_endsWithInteger slash)
      (getLastCharP slash) "/" = true
  ∧ _buf (run_token "/" slash) = rev (charCodes_of "//")
  ∧ _buf (run_word "/a/" slash) = rev (charCodes_of "/ /a/").
Proof. repeat split; vm_compute; reflexivity. Qed.

(** C7.  A `/` appended by [token] straight after a `/` gets no space,
    although a `/` that starts a word does: the check that [word] makes for
    this case is missing from [token].  Under compact formatting, where
    [space()] writes nothing, the regular expression `/re/` divided by `x`
    comes out as `/re//x`, in which the division has become a line comment;
    the rule of the adjacency cases calls for a space at that point, and
    [word] after the same `/` does write one.  Likewise [tokenChar] has no
    case for `!`: an `=` after `!` comes out as `!=`, where [token] writes
    `! =`. *)
Theorem adjacency_slash_comment :
  let regex := run_word "/re/" (plainPrinter compactFormat []) in
  let operand := run_space false regex in
  let divided := run_space false (run_token "/" operand) in
  let bang := run_token "!" (plainPrinter plainFormat []) in
  getLastCharP operand = charCodes.slash
  ∧ anyTokenNeedsSpace false (_endsWithWord operand)
      (_endsWithInteger operand) (getLastCharP operand) "/" = true
  ∧ _buf (run_token "/" operand) = rev (charCodes_of "/re//")
  ∧ _buf (run_word "x" divided) = rev (charCodes_of "/re//x")
  ∧ _buf (run_word "/x/" operand) = rev (charCodes_of "/re/ /x/")
  ∧ anyTokenNeedsSpace false (_endsWithWord bang) (_endsWithInteger bang)
      (getLastCharP bang) "=" = true
  ∧ _buf (run_tokenChar charCodes.equalsTo bang) = rev (charCodes_of "!=")
  ∧ _buf (run_token "=" bang) = rev (charCodes_of "! =").
Proof. cbv zeta. repeat split; vm_compute; reflexivity. Qed.

(** C10 (as amended).  [newline(i, force)] leaves the printer as it is when
    i <= 0, and, when not forced, under retain-lines or compact formatting.
    When not forced under concise formatting it is the unforced [space()]:
    one space is queued if the buffer has content and does not already end
    in a space or a newline, and nothing otherwise.  In every other case the
    request is clamped to two, reduced by the newlines the buffer counts as
    pending, and that many times [_newline] runs: never more than twice, and
    with no terminatorless latch set each run queues one line feed. *)
Theorem newline_spec {Buf : Type} `{!Buffer Buf}
    (nested : Printer Buf → Printer Buf)
    (i : Z) (force : bool) (p : Printer Buf) :
  ((i ≤ 0)%Z → newline nested i force p = p)
  ∧ ((0 < i)%Z → force = false →
     retainLines (format p) || compact (format p) = true →
     newline nested i force p = p)
  ∧ ((0 < i)%Z → force = false →
     retainLines (format p) = false → compact (format p) = false →
     concise (format p) = true →
     newline nested i force p = space nested false p
     ∧ space nested false p
       = if hasContent (_buf p)
            && negb (getLastCharP p =? charCodes.space)%Z
            && negb (getLastCharP p =? charCodes.lineFeed)%Z
         then _space nested p else p)
  ∧ ((0 < i)%Z →
     force = true
     ∨ (retainLines (format p) = false ∧ compact (format p) = false
        ∧ concise (format p) = false) →
     let count := Z.to_nat (Z.min i 2 - getNewlineCount (_buf p)) in
     newline nested i force p = _newlines nested count p
     ∧ ((0 ≤ getNewlineCount (_buf p))%Z → (count ≤ 2)%nat)
     ∧ (_parenPushNewlineState p = None →
        _buf (_newlines nested count p)
        = Nat.iter count (queue charCodes.lineFeed) (_buf p))).
Proof.
  split; [|split; [|split]].
  - intros Hi. unfold newline.
    destruct (Z.leb_spec i 0); [done|lia].
  - intros Hi -> Hfmt. unfold newline.
    destruct (Z.leb_spec i 0); [lia|]. cbn [negb andb]. by rewrite Hfmt.
  - intros Hi -> Hr Hc Hcon. unfold newline.
    destruct (Z.leb_spec i 0); [lia|]. cbn [negb andb].
    rewrite Hr, Hc, Hcon. cbn [orb]. split; [done|].
    unfold space. rewrite Hc.
    by destruct (hasContent (_buf p)).
  - intros Hi Hcase count.
    assert (newline nested i force p = _newlines nested count p) as ->.
    { unfold newline. destruct (Z.leb_spec i 0); [lia|].
      assert (negb force && (retainLines (format p) || compact (format p)) = false
              ∧ negb force && concise (format p) = false) as [-> ->].
      { destruct Hcase as [->|(-> & -> & ->)]; [done|].
        by rewrite !andb_false_r. }
      unfold count. do 2 f_equal.
      destruct (Z.gtb_spec i 2); lia. }
    split; [done|]. split.
    + intros Hc. unfold count. lia.
    + apply _newlines_no_latch.
Qed.

Lemma newline_spec_witness :
  newline run_nested 5 false (run_word "a" (plainPrinter plainFormat []))
  = _newlines run_nested 2 (run_word "a" (plainPrinter plainFormat [])).
Proof.
  pose proof (proj1 (proj2 (proj2 (proj2
           (newline_spec run_nested 5 false
              (run_word "a" (plainPrinter plainFormat [])))))
           ltac:(lia) (or_intror (conj eq_refl (conj eq_refl eq_refl)))))
    as H.
  cbv zeta in H. rewrite H. reflexivity.
Defined.

(** Under concise formatting an unforced newline on an empty buffer, or on a
    buffer that already ends in a space, emits nothing: no space. *)
Lemma newline_concise_counterexample :
  newline run_nested 1 false (plainPrinter conciseFormat [])
  = plainPrinter conciseFormat []
  ∧ _buf (newline run_nested 1 false
            (plainPrinter conciseFormat [charCodes.space; 97%Z]))
    = [charCodes.space; 97%Z]
  ∧ _buf (newline run_nested 1 false (plainPrinter conciseFormat [97%Z]))
    = [charCodes.space; 97%Z].
Proof. repeat split; vm_compute; reflexivity. Qed.

End PrinterFacts.

(* ===================================================================== *)
(** * Properties of the environment preset                               *)
(* ===================================================================== *)

Module PresetEnvFacts.
Import PresetEnv.

Ltac not_in_names :=
  let Hin := fresh "Hin" in
  intros Hin;
  repeat (apply elem_of_cons in Hin as [Hin|Hin];
          [try discriminate Hin; try congruence|]);
  by apply elem_of_nil in Hin.

Ltac in_names :=
  repeat first [apply list_elem_of_here | apply list_elem_of_further].

(** When dynamic import is to be transformed but the format cannot express
    it, the function warns once and falls back to the syntax plugin. *)
Lemma getModulesPluginNames_fallback m t transformations
    (shouldTransformESM shouldTransformDynamicImport
     shouldTransformExportNamespaceFrom shouldParseTopLevelAwait : bool) :
  transformations !! m = Some t → t ≠ "" →
  shouldTransformDynamicImport = true →
  shouldTransformESM = false ∨ m = "umd" →
  ∃ names,
    getModulesPluginNames (Some m) transformations shouldTransformESM
      shouldTransformDynamicImport shouldTransformExportNamespaceFrom
      shouldParseTopLevelAwait
    = ([dynamicImportWarning], names)
    ∧ names = ((if shouldTransformESM then [t] else [])
               ++ "syntax-dynamic-import"
                  :: (if shouldTransformExportNamespaceFrom
                      then "transform-export-namespace-from"
                      else "syntax-export-namespace-from")
                  :: (if shouldParseTopLevelAwait
                      then ["syntax-top-level-await"] else [])
               ++ ["syntax-import-meta"])%list
    ∧ "syntax-dynamic-import" ∈ names
    ∧ (t ≠ "transform-dynamic-import" → "transform-dynamic-import" ∉ names).
Proof.
  intros Ht Hne -> Hcase. unfold getModulesPluginNames. rewrite Ht.
  rewrite (proj2 (String.eqb_neq t "")) by done.
  assert (shouldTransformESM && negb (String.eqb m "umd") = false) as Hc.
  { destruct Hcase as [->| ->]; [done|]. by rewrite andb_false_r. }
  cbn [andb]. rewrite Hc.
  eexists. split; [reflexivity|].
  destruct shouldTransformESM, shouldTransformExportNamespaceFrom,
    shouldParseTopLevelAwait; cbn;
    (split; [reflexivity|]); (split; [in_names|]); intros Ht'; not_in_names.
Qed.

(** A warning is never written in any other situation. *)
Lemma getModulesPluginNames_warning modules transformations
    (shouldTransformESM shouldTransformDynamicImport
     shouldTransformExportNamespaceFrom shouldParseTopLevelAwait : bool) :
  fst (getModulesPluginNames modules transformations shouldTransformESM
         shouldTransformDynamicImport shouldTransformExportNamespaceFrom
         shouldParseTopLevelAwait) ≠ [] →
  ∃ m t, modules = Some m ∧ transformations !! m = Some t ∧ t ≠ ""
         ∧ shouldTransformDynamicImport = true
         ∧ (shouldTransformESM = false ∨ m = "umd").
Proof.
  unfold getModulesPluginNames.
  destruct modules as [m|]; [|done].
  destruct (transformations !! m) as [t|] eqn:Ht; [|done].
  destruct (String.eqb_spec t ""); [done|].
  destruct shouldTransformDynamicImport; cbn [andb].
  - destruct shouldTransformESM; cbn [andb].
    + destruct (String.eqb_spec m "umd"); cbn; [|done].
      intros _. exists m, t. repeat split; try done. by right.
    + intros _. exists m, t. repeat split; try done. by left.
  - by destruct shouldTransformESM.
Qed.

(** C9.  In the preset, with a module format that has a module transform:
    when dynamic import is to be transformed but ES-module syntax is not
    being transformed, or the format is "umd", the warning is written once,
    the names returned hold "syntax-dynamic-import" and no
    "transform-dynamic-import", and the function returns its list as in
    every other case. *)
Theorem dynamic_import_fallback
    (modules : option string) (m t : string)
    (transformations : gmap string string)
    (apiCaller : option (option CallerMetadata))
    (exportNamespaceFromRequired : bool) :
  let isAuto := bool_decide (modules = Some "auto") in
  let shouldTransformESM :=
    negb isAuto || negb (callerSupports apiCaller supportsStaticESM) in
  let shouldTransformDynamicImport :=
    negb isAuto || negb (callerSupports apiCaller supportsDynamicImport) in
  modules = Some m →
  transformations !! m = Some t → t ≠ "" → t ≠ "transform-dynamic-import" →
  shouldTransformDynamicImport = true →
  shouldTransformESM = false ∨ m = "umd" →
  ∃ names,
    presetModulesPluginNames modules transformations apiCaller
      exportNamespaceFromRequired
    = ([dynamicImportWarning], names)
    ∧ "syntax-dynamic-import" ∈ names
    ∧ ("transform-dynamic-import" ∉ names)
    ∧ last names = Some "syntax-import-meta".
Proof.
  intros isAuto sTESM sTDI -> Ht Hne Hne' Hdi Hcase.
  unfold presetModulesPluginNames. fold isAuto. fold sTESM. fold sTDI.
  destruct (getModulesPluginNames_fallback m t transformations sTESM sTDI
              (negb ((isAuto && callerSupports apiCaller supportsExportNamespaceFrom)
                     || (bool_decide (Some m = None)
                         && negb exportNamespaceFromRequired)))
              (match apiCaller with
               | None => true
               | Some _ => callerSupports apiCaller supportsTopLevelAwait
               end) Ht Hne Hdi Hcase)
    as (names & Hrun & Hnames & Hin & Hnotin).
  exists names. split; [exact Hrun|]. split; [done|]. split; [by apply Hnotin|].
  rewrite Hnames.
  rewrite !app_comm_cons, app_assoc. apply last_snoc.
Qed.

Lemma dynamic_import_fallback_witness :
  ∃ names,
    presetModulesPluginNames (Some "umd") moduleTransformations None true
    = ([dynamicImportWarning], names)
    ∧ "syntax-dynamic-import" ∈ names.
Proof.
  destruct (dynamic_import_fallback (Some "umd") "umd" "transform-modules-umd"
              moduleTransformations None true eq_refl eq_refl
              ltac:(discriminate) ltac:(discriminate) eq_refl
              (or_intror eq_refl))
    as (names & Hrun & Hin & _).
  exists names. split; assumption.
Defined.

(** ** Plugin selection against target versions *)



Section Lowering.
Variable targets : Targets.
Variable platform : string.
Variables high low : Semver.SemVer.
Hypothesis targets_platform : targets !! platform = Some high.
Hypothesis low_le_high : Semver.gt low high = false.




End Lowering.




End PresetEnvFacts.

(* ===================================================================== *)
(** * Properties of indentation, comments and sequences                  *)
(* ===================================================================== *)

Module PrinterLayoutFacts.
Import Printer PrinterLayout.

Section Methods.
Context {Buf : Type} `{!Buffer Buf}.
Variable printInnerComments : Printer Buf → Printer Buf.
Variable _printComment : string → Printer Buf → Printer Buf.
Implicit Type p : Printer Buf.

Abbreviation nested := (PrinterLayout.nested printInnerComments _printComment).


Lemma _space_format p : format (_space nested p) = format p.
Proof.
  unfold _space, _queue, _maybeAddParenChar. cbn -[Z.eqb].
  destruct (_parenPushNewlineState p); cbn; unfold _maybeIndent;
    by destruct (_ && _).
Qed.

Lemma space_cases force p :
  space nested force p = p ∨ space nested force p = _space nested p.
Proof.
  unfold space. destruct (compact (format p)); [by left|].
  destruct force; [by right|].
  destruct (hasContent (_buf p)); [|by left].
  destruct (_ && _); [by right|by left].
Qed.

(** An unforced [space()] straight after an unforced [space()] writes
    nothing, provided the buffer reports a queued character as its last
    one. *)
Theorem space_twice p :
  (∀ c (b : Buf), getLastChar (queue c b) = c) →
  space nested false (space nested false p) = space nested false p.
Proof.
  intros Hlast.
  destruct (space_cases false p) as [H|H]; rewrite H; [by rewrite H|].
  unfold space. rewrite _space_format.
  destruct (compact (format p)); [done|].
  destruct (hasContent (_buf (_space nested p))); [|done].
  assert (getLastCharP (_space nested p) = charCodes.space) as ->; [|done].
  unfold getLastCharP, _space, _queue. cbn. apply Hlast.
Qed.










(** On a string of one character, [_maybeAddParen] does what
    [_maybeAddParenChar] does on that character's code. *)
Theorem _maybeAddParen_char (k : Printer Buf → Printer Buf) (c : ascii) p :
  _maybeAddParen k (String c "") p
  = _maybeAddParenChar k (Z.of_nat (nat_of_ascii c)) p.
Proof.
  unfold _maybeAddParen, _maybeAddParenChar.
  destruct (_parenPushNewlineState p) as [l|]; [|done].
  change charCodes.space with (Z.of_nat (nat_of_ascii " ")).
  change charCodes.lineFeed with (Z.of_nat (nat_of_ascii "010")).
  rewrite !PrinterFacts.charCode_eqb.
  cbn [leadingSpaces String.length].
  destruct (Ascii.eqb_spec c " ") as [->|Hsp]; [done|].
  cbn [Nat.eqb]. unfold charCodeAt. cbn [String.get].
  rewrite PrinterFacts.charCode_eqb.
  destruct (Ascii.eqb c "010"); cbn; [done|].
  by rewrite orb_true_r.
Qed.

Section Aux.
Hypothesis _printComment_flag : ∀ c q,
  _printAuxAfterOnNextUserNode (_printComment c q)
  = _printAuxAfterOnNextUserNode q.

(** The auxiliary comments come in pairs.  Provided printing a comment
    leaves the pending flag alone: after [_printAuxBeforeComment] the flag
    is set and after [_printAuxAfterComment] it is cleared; either method
    called twice in a row does nothing the second time; and the "after"
    comment is not printed unless a "before" is pending, nor the "before"
    while one is. *)
Theorem aux_comments_pair p :
  let before := _printAuxBeforeComment _printComment in
  let after := _printAuxAfterComment _printComment in
  _printAuxAfterOnNextUserNode (before p) = true
  ∧ _printAuxAfterOnNextUserNode (after p) = false
  ∧ before (before p) = before p
  ∧ after (after p) = after p
  ∧ (_printAuxAfterOnNextUserNode p = false → after p = p)
  ∧ (_printAuxAfterOnNextUserNode p = true → before p = p).
Proof.
  cbv zeta.
  assert (∀ q, _printAuxAfterOnNextUserNode
                 (_printAuxBeforeComment _printComment q) = true) as Hb.
  { intros q. unfold _printAuxBeforeComment.
    destruct (_printAuxAfterOnNextUserNode q) eqn:Hq; [done|].
    destruct (String.eqb _ ""); [done|]. by rewrite _printComment_flag. }
  assert (∀ q, _printAuxAfterOnNextUserNode
                 (_printAuxAfterComment _printComment q) = false) as Ha.
  { intros q. unfold _printAuxAfterComment.
    destruct (_printAuxAfterOnNextUserNode q) eqn:Hq; [|done]. cbn [negb].
    destruct (String.eqb _ ""); [done|]. by rewrite _printComment_flag. }
  split; [done|]. split; [done|].
  split; [|split; [|split]].
  - unfold _printAuxBeforeComment at 1. by rewrite Hb.
  - unfold _printAuxAfterComment at 1. by rewrite Ha.
  - intros H0. unfold _printAuxAfterComment. by rewrite H0.
  - intros H1. unfold _printAuxBeforeComment. by rewrite H1.
Qed.
End Aux.

(** ** Sequences *)

Lemma _queue_steady f k c p : steady f k p → steady f k (_queue nested c p).
Proof.
  intros (Hf & Hk & Hl). unfold _queue, _maybeAddParenChar. rewrite Hl.
  unfold steady, _maybeIndent. by destruct (_ && _).
Qed.

Lemma space_steady f k force p :
  steady f k p → steady f k (space nested force p).
Proof.
  intros H. destruct (space_cases force p) as [->| ->]; [done|].
  by apply _queue_steady.
Qed.

Lemma _newlines_steady f k count p :
  steady f k p → steady f k (_newlines nested count p).
Proof.
  revert p. induction count as [|count IH]; intros p H; [done|].
  cbn. apply IH. by apply _queue_steady.
Qed.

Lemma newline_steady f k i force p :
  steady f k p → steady f k (newline nested i force p).
Proof.
  intros H. unfold newline.
  destruct (i <=? 0)%Z; [done|].
  destruct (negb force && _); [done|].
  destruct (negb force && _); [by apply space_steady|].
  by apply _newlines_steady.
Qed.

Section Tokens.
Hypothesis printInnerComments_steady :
  ∀ f k p, steady f k p → steady f k (printInnerComments p).
Hypothesis _printComment_steady :
  ∀ f k c p, steady f k p → steady f k (_printComment c p).

Lemma _append_steady f k str maybeNewline p :
  steady f k p → steady f k (_append nested str maybeNewline p).
Proof.
  intros (Hf & Hk & Hl). unfold _append, _maybeAddParen. rewrite Hl.
  unfold steady, _maybeIndent. by destruct (_ && _).
Qed.

Lemma aux_steady f k p :
  steady f k p → steady f k (_maybeAddAuxComment _printComment false p).
Proof.
  intros H. unfold _maybeAddAuxComment.
  destruct (negb (_insideAux p)); [|done].
  unfold _printAuxAfterComment.
  destruct (negb _); [done|].
  destruct (String.eqb _ ""); [done|]. by apply _printComment_steady.
Qed.

Lemma inner_steady f k p :
  steady f k p →
  steady f k (_maybePrintInnerComments printInnerComments p).
Proof.
  intros H. unfold _maybePrintInnerComments.
  destruct (_endsWithInnerRaw p); [|done].
  by apply (printInnerComments_steady f k p).
Qed.

Lemma steady_noLineTerminator f k (b : bool) p :
  steady f k p → steady f k (set_noLineTerminator b p).
Proof. by intros (? & ? & ?). Qed.

Lemma steady_endsWithWord f k (b : bool) p :
  steady f k p → steady f k (set_endsWithWord b p).
Proof. by intros (? & ? & ?). Qed.

Lemma token_steady f k str maybeNewline p :
  steady f k p →
  steady f k (token printInnerComments _printComment nested str maybeNewline p).
Proof.
  intros H. rewrite PrinterFacts.token_space.
  apply steady_noLineTerminator, _append_steady, aux_steady.
  destruct (tokenNeedsSpace _ _ _); [apply _queue_steady|];
    by apply inner_steady.
Qed.

Lemma word_steady f k str nlt p :
  steady f k p →
  steady f k (word printInnerComments _printComment nested str nlt p).
Proof.
  intros H. rewrite PrinterFacts.word_space.
  apply steady_noLineTerminator, steady_endsWithWord, _append_steady,
    aux_steady.
  destruct (wordNeedsSpace _ _ _); [apply _queue_steady|];
    by apply inner_steady.
Qed.

Lemma commaSeparator_keeps :
  keeps (commaSeparator printInnerComments _printComment).
Proof.
  intros f k s s' [= <-] H. cbn. apply space_steady. by apply token_steady.
Qed.
End Tokens.

Section Join.
Variable getCurrentLine : Buf → Z.
Variable print : Node → Z → PrinterState Buf → @Result Buf.
Variable opts : @PrintJoinOptions Buf.

Abbreviation _printNewline :=
  (PrinterLayout._printNewline printInnerComments _printComment).
Abbreviation printJoin_from :=
  (PrinterLayout.printJoin_from printInnerComments _printComment print opts).
Abbreviation printJoin :=
  (PrinterLayout.printJoin getCurrentLine printInnerComments _printComment
     print).

Lemma _printNewline_steady f k newLine line s :
  steady f k (printer s) →
  steady f k (printer (_printNewline newLine line s)).
Proof.
  intros H. unfold PrinterLayout._printNewline.
  destruct (_ || _); [done|].
  destruct (concise _); [by apply space_steady|].
  destruct (negb newLine); [done|].
  destruct (_ && _); [by apply newline_steady|].
  destruct (hasContent _); [by apply newline_steady|done].
Qed.

Hypothesis print_keeps : ∀ node offset, keeps (print node offset).
Hypothesis separator_keeps : ∀ sep, separator opts = Some sep → keeps sep.
Hypothesis iterator_keeps :
  ∀ it node i, iterator opts = Some it → keeps (it node i).

Lemma andThen_inr (r : @Result Buf) (g : PrinterState Buf → @Result Buf) s' :
  andThen r g = inr s' → ∃ s1, r = inr s1 ∧ g s1 = inr s'.
Proof. destruct r as [e|s1]; [done|]. intros H. by exists s1. Qed.

Lemma call_keeps (g : option (PrinterState Buf → @Result Buf)) :
  (∀ step, g = Some step → keeps step) → keeps (call g).
Proof.
  intros H. destruct g as [step|]; cbn; [by apply H|].
  by intros f k s s' [= <-].
Qed.

Lemma printJoin_from_steady f k nodes i line s s' :
  printJoin_from i line nodes s = inr s' →
  steady f k (printer s) → steady f k (printer s').
Proof.
  revert i line s. induction nodes as [|[node|] rest IH]; intros i line s.
  - cbn. by intros [= <-].
  - cbn [PrinterLayout.printJoin_from]. intros Hrun Hs.
    apply andThen_inr in Hrun as (s2 & Hp & Hrun).
    apply andThen_inr in Hrun as (s3 & Hi & Hrun).
    apply andThen_inr in Hrun as (s4 & Hsep & Hrun).
    assert (steady f k (printer s2)) as H2.
    { eapply print_keeps; [exact Hp|].
      destruct (statement opts); [|done]. by apply _printNewline_steady. }
    assert (steady f k (printer s3)) as H3.
    { eapply call_keeps; [|exact Hi|exact H2].
      intros step Hstep. destruct (iterator opts) as [it|] eqn:Hit; [|done].
      injection Hstep as <-. by eapply iterator_keeps. }
    assert (steady f k (printer s4)) as H4.
    { destruct rest as [|x rest']; [by injection Hsep as <-|].
      eapply call_keeps; [|exact Hsep|exact H3]. apply separator_keeps. }
    destruct (statement opts).
    + destruct rest as [|[nextNode|] rest']; [| |done].
      * injection Hrun as <-. by apply newline_steady.
      * eapply IH; [exact Hrun|]. by apply _printNewline_steady.
    + by eapply IH.
  - cbn. apply IH.
Qed.

Lemma indent_steady f k p :
  steady f k p →
  ∃ k', steady f k' (indent p)
        ∧ ∀ q : Printer Buf, steady f k' q → steady f k (dedent q).
Proof.
  intros (Hf & Hk & Hl). unfold indent. rewrite Hf.
  destruct (compact f || concise f) eqn:Hc.
  - exists k. split; [done|]. intros q (Hqf & Hqk & Hql).
    unfold dedent. by rewrite Hqf, Hc.
  - exists (k + 1)%Z. split; [split; [done|split; [cbn; lia|done]]|].
    intros q (Hqf & Hqk & Hql). unfold dedent. rewrite Hqf, Hc.
    split; [done|]. split; [cbn; lia|done].
Qed.

Lemma printJoin_steady f k nodes s s' :
  printJoin nodes opts s = inr s' →
  steady f k (printer s) → steady f k (printer s').
Proof.
  unfold PrinterLayout.printJoin.
  destruct nodes as [[|first rest]|]; [by intros [= <-]| |by intros [= <-]].
  destruct (match opt_indent opts with Some b => _ | None => _ end)
    as [e|doIndent]; [done|].
  intros Hrun Hs. apply andThen_inr in Hrun as (s2 & Hloop & Hrun).
  injection Hrun as <-.
  destruct doIndent.
  - destruct (indent_steady f k _ Hs) as (k' & Hin & Hout).
    cbn. apply Hout. eapply printJoin_from_steady; [exact Hloop|]. exact Hin.
  - by eapply printJoin_from_steady.
Qed.

Lemma printJoin_first_hole rest s :
  opt_indent opts = None → retainLines (format (printer s)) = true →
  printJoin (Some (None :: rest)) opts s
  = inl (TypeError "Cannot read properties of null (reading 'loc')").
Proof.
  intros Hi Hr. unfold PrinterLayout.printJoin. by rewrite Hi, Hr.
Qed.

Lemma printJoin_next_hole node rest s s2 :
  opt_indent opts = Some false → statement opts = true →
  iterator opts = None → separator opts = None →
  print node (default 0%Z (trailingCommentsLineOffset opts))
    (_printNewline true 0 s) = inr s2 →
  printJoin (Some (Some node :: None :: rest)) opts s
  = inl (TypeError "Cannot read properties of null (reading 'loc')").
Proof.
  intros Hi Hst Hit Hsep Hp. unfold PrinterLayout.printJoin. rewrite Hi.
  cbn [PrinterLayout.printJoin_from]. rewrite Hst. cbn [Nat.eqb].
  rewrite Hp, Hit, Hsep. done.
Qed.
End Join.

End Methods.

(** [printJoin] on a hole.  Under retain-lines formatting with no [indent]
    option, a list whose first element is a hole makes [printJoin] throw a
    TypeError before anything is printed; and in statement mode a hole that
    follows a printed node makes it throw once that node is printed. *)
Theorem printJoin_holes {Buf : Type} `{!Buffer Buf}
    (getCurrentLine : Buf → Z)
    (printInnerComments : Printer Buf → Printer Buf)
    (_printComment : string → Printer Buf → Printer Buf)
    (print : Node → Z → PrinterState Buf → @Result Buf)
    (opts : @PrintJoinOptions Buf)
    (rest : list (option Node)) (s : PrinterState Buf) :
  let printJoin :=
    printJoin getCurrentLine printInnerComments _printComment print in
  (opt_indent opts = None → retainLines (format (printer s)) = true →
   printJoin (Some (None :: rest)) opts s
   = inl (TypeError "Cannot read properties of null (reading 'loc')"))
  ∧ (∀ node s2,
       opt_indent opts = Some false → statement opts = true →
       iterator opts = None → separator opts = None →
       print node (default 0%Z (trailingCommentsLineOffset opts))
         (_printNewline printInnerComments _printComment true 0 s) = inr s2 →
       printJoin (Some (Some node :: None :: rest)) opts s
       = inl (TypeError "Cannot read properties of null (reading 'loc')")).
Proof.
  cbv zeta. split.
  - apply printJoin_first_hole.
  - intros node s2. apply printJoin_next_hole.
Qed.

(** [printJoin] leaves the indentation as it found it.  Started without a
    terminatorless latch, and given that printing a node, the separator
    and the iterator keep the format, the indentation level and the
    absence of a latch, a call of [printJoin] that returns has kept all
    three: the [indent()] it may do is undone by its [dedent()]. *)
Theorem printJoin_keeps_indent {Buf : Type} `{!Buffer Buf}
    (getCurrentLine : Buf → Z)
    (printInnerComments : Printer Buf → Printer Buf)
    (_printComment : string → Printer Buf → Printer Buf)
    (print : Node → Z → PrinterState Buf → @Result Buf)
    (opts : @PrintJoinOptions Buf)
    (nodes : option (list (option Node))) (s s' : PrinterState Buf) :
  (∀ node offset,
     keeps (print node offset)) →
  (∀ sep, separator opts = Some sep →
          keeps sep) →
  (∀ it node i, iterator opts = Some it →
                keeps (it node i)) →
  _parenPushNewlineState (printer s) = None →
  printJoin getCurrentLine printInnerComments _printComment print
    nodes opts s = inr s' →
  format (printer s') = format (printer s)
  ∧ _indent (printer s') = _indent (printer s)
  ∧ _parenPushNewlineState (printer s') = None.
Proof.
  intros Hp Hsep Hit Hl Hrun.
  by apply (printJoin_steady printInnerComments _printComment getCurrentLine
              print opts Hp Hsep Hit (format (printer s))
              (_indent (printer s)) nodes s s' Hrun).
Qed.

(** A comment is let through at most once.  [_shouldPrintComment] answers
    ALLOW only for a comment that is not ignored, has not been seen and
    passes the format's filter; it then records the comment, and in every
    later state that still holds the record the answer is SKIP and the
    state stays as it is.  DEFER leaves the state untouched, so that the
    comment can be let through later; and the set of seen comments never
    loses a member. *)
Theorem _shouldPrintComment_once {Buf : Type}
    (shouldPrintComment : string → bool)
    (c : Comment) (s : PrinterState Buf) :
  let hint := fst (_shouldPrintComment shouldPrintComment c s) in
  let s1 := snd (_shouldPrintComment shouldPrintComment c s) in
  (hint = DEFER → s1 = s)
  ∧ (hint = ALLOW →
     ignore c = false ∧ (ref c ∉ _printedComments s)
     ∧ shouldPrintComment (value c) = true
     ∧ ∀ s2 : PrinterState Buf,
         _printedComments s1 ⊆ _printedComments s2 →
             _shouldPrintComment shouldPrintComment c s2 = (SKIP, s2))
  ∧ _printedComments s ⊆ _printedComments s1
  ∧ printer s1 = printer s.
Proof.
  cbv zeta. unfold _shouldPrintComment.
  destruct (ignore c); [done|].
  destruct (bool_decide (ref c ∈ _printedComments s)) eqn:Hin; [done|].
  apply bool_decide_eq_false in Hin.
  destruct (_ && _); [done|].
  destruct (shouldPrintComment (value c)) eqn:Hf; cbn.
  - split; [done|]. split; [|split; [|done]].
    + intros _. split; [done|]. split; [done|]. split; [done|].
      intros s2 Hsub. rewrite bool_decide_eq_true_2; [done|].
      apply Hsub. apply elem_of_union. left. by apply elem_of_singleton.
    + apply union_subseteq_r.
  - split; [done|]. split; [done|]. split; [|done]. apply union_subseteq_r.
Qed.
Lemma space_twice_witness :
  space run_nested false
    (space run_nested false (run_word "a" (plainPrinter plainFormat [])))
  = space run_nested false (run_word "a" (plainPrinter plainFormat [])).
Proof.
  apply (space_twice (λ q, q) (λ _ q, q)). intros c b. reflexivity.
Defined.


Lemma aux_comments_pair_witness :
  let p := plainPrinter (mkFormat false false false "before" "after") [] in
  _printAuxBeforeComment appendComment (_printAuxBeforeComment appendComment p)
  = _printAuxBeforeComment appendComment p.
Proof.
  intros p.
  exact (proj1 (proj2 (proj2
           (aux_comments_pair appendComment (λ c q, eq_refl) p)))).
Defined.

Lemma _shouldPrintComment_once_witness :
  let c := mkComment 1 true "note" false in
  let s1 := snd (_shouldPrintComment (λ _, true) c (plainState plainFormat)) in
  _shouldPrintComment (λ _, true) c s1 = (SKIP, s1).
Proof.
  cbv zeta.
  destruct (_shouldPrintComment_once (λ _, true)
              (mkComment 1 true "note" false) (plainState plainFormat))
    as (_ & H & _).
  destruct (H eq_refl) as (_ & _ & _ & Hlater).
  apply Hlater. reflexivity.
Defined.

Lemma printJoin_holes_witness :
  run_printJoin (Some [None; Some (mkNode "a" None)])
    (mkOptions None false None None None) (plainState retainLinesFormat)
  = inl (TypeError "Cannot read properties of null (reading 'loc')").
Proof.
  apply (proj1 (printJoin_holes (λ _ : list Z, 1%Z) (λ q, q) (λ _ q, q)
                  run_print (mkOptions None false None None None)
                  [Some (mkNode "a" None)] (plainState retainLinesFormat)));
    reflexivity.
Defined.

Lemma printJoin_keeps_indent_witness :
  ∃ s', run_printJoin (Some [Some (mkNode "a" None); None; Some (mkNode "b" None)])
          (mkOptions (Some true) false (Some run_commaSeparator) None None)
          (plainState plainFormat) = inr s'
        ∧ _indent (printer s') = 0%Z.
Proof.
  destruct (run_printJoin _ _ _) as [e|s'] eqn:Hrun;
    [vm_compute in Hrun; discriminate Hrun|].
  exists s'. split; [reflexivity|].
  refine (proj1 (proj2 (printJoin_keeps_indent (λ _ : list Z, 1%Z)
            (λ q, q) (λ _ q, q) run_print
            (mkOptions (Some true) false (Some run_commaSeparator) None None)
            _ (plainState plainFormat) s' _ _ _ eq_refl Hrun))).
  - intros node offset f k s s2 Heq H. unfold run_print in Heq.
    injection Heq as <-. unfold on_printer, run_word, run_nested.
    cbn [printer].
    apply (word_steady (λ q, q) (λ _ q, q)); [tauto|tauto|exact H].
  - intros sep Heq. cbn [separator] in Heq. injection Heq as <-.
    apply (commaSeparator_keeps (λ q, q) (λ _ q, q)); tauto.
  - intros it node i Heq. cbn [iterator] in Heq. discriminate Heq.
Defined.

End PrinterLayoutFacts.
